(** * Two-Handed optimization: a shallow embedding of [TwoHand.ipynb]

    The notebook defines one class, [TwoHanded], with the methods
    [__init__], [selectLeftOrRight], [generateRandomHypothesis],
    [gradientStep] and [optimize].  This file embeds them and proves
    properties of the embedding.

    Modelling decisions, all of them read off the source:

    - Python floats are IEEE-754 binary64 numbers.  They are modelled by
      the Standard Library's [spec_float] at precision 53 and maximal
      exponent 1024, whose operations are executable and round to nearest
      even.  Python's [/] raises [ZeroDivisionError] on a zero divisor
      instead of producing an infinity or a NaN; that is written out.
    - The two counters [leftPoints] and [rightPoints] are Python integers
      (the defaults are [1] and the only update is [+= 1]); they are [Z].
    - Python lists of floats are mutable objects.  They live in a store
      addressed by allocation index; a list variable holds a location.
    - [r.uniform] is the only source of randomness.  The value returned by
      the [k]-th call of a run, with bounds [a] and [b], is [uniform k a b]
      for a function [uniform] that is a parameter of the development.
    - The objective function is a pure function from the content of the
      list it is handed to a float.  Each call is recorded in the world, so
      that the number of evaluations can be counted.  An objective that
      raises is outside the model: what is proved of a call that completes
      is proved for objectives that return.
    - Exceptions are values of [result]; a computation is a function from
      a world to a result and the world it leaves behind.  An exception
      does not roll the world back. *)

From Stdlib Require Import ZArith List Bool Lia.
From Stdlib Require Import Floats.SpecFloat.
From stdpp Require Import base list.

Local Open Scope Z_scope.

(** ** Floats *)

Definition float : Type := spec_float.

Definition prec : Z := 53.
Definition emax : Z := 1024.

Definition fadd : float -> float -> float := SFadd prec emax.
Definition fsub : float -> float -> float := SFsub prec emax.
Definition fmul : float -> float -> float := SFmul prec emax.
Definition fdiv : float -> float -> float := SFdiv prec emax.

(** Python's [x < y] and [x > y] on floats: false as soon as one side is a
    NaN. *)
Definition py_lt (x y : float) : bool := SFltb x y.
Definition py_gt (x y : float) : bool := SFltb y x.
(** [x <= y], used to state monotonicity. *)
Definition py_le (x y : float) : bool := SFleb x y.

#[global] Arguments fadd : simpl never.
#[global] Arguments fsub : simpl never.
#[global] Arguments fmul : simpl never.
#[global] Arguments fdiv : simpl never.
#[global] Arguments py_lt : simpl never.
#[global] Arguments py_gt : simpl never.
#[global] Arguments py_le : simpl never.

Definition is_nan (x : float) : bool :=
  match x with S754_nan => true | _ => false end.

Definition is_zero (x : float) : bool :=
  match x with S754_zero _ => true | _ => false end.

(** [math.isfinite]. *)
Definition is_finite (x : float) : bool :=
  match x with
  | S754_zero _ | S754_finite _ _ _ => true
  | S754_infinity _ | S754_nan => false
  end.

Definition pos_inf : float := S754_infinity false.
(** [-float("inf")] *)
Definition neg_inf : float := S754_infinity true.
Definition nan : float := S754_nan.
Definition zero : float := S754_zero false.
Definition one : float := S754_finite false 4503599627370496 (-52).
Definition two : float := S754_finite false 4503599627370496 (-51).

(** [10 ** (-10)], the default of [dx]: the double nearest to 1e-10. *)
Definition default_dx : float := S754_finite false 7737125245533627 (-86).
(** [0.01], the default of [learnRate]. *)
Definition default_learnRate : float := S754_finite false 5764607523034235 (-59).

(** ** Exceptions and results *)

Inductive exn : Type :=
| ZeroDivisionError
| OverflowError
| IndexError
| InvalidSearchSpace    (* named by the specification; never raised by the source *)
| DanglingReference.    (* a location outside the store; no Python program reaches it *)

Inductive result (A : Type) : Type :=
| Ok (a : A)
| Raise (e : exn).
Arguments Ok {A} a.
Arguments Raise {A} e.

(** Python's [x / y] on Python floats, which raises on a zero divisor.
    (For a NumPy scalar numerator the division by zero returns an infinity
    or a NaN instead; the only division of the class is by [dx], and
    nothing below is stated for a zero [dx] but the frame of
    [gradientStep].) *)
Definition float_truediv (x y : float) : result float :=
  if is_zero y then Raise ZeroDivisionError else Ok (fdiv x y).

(** An integer as an (unnormalised) float operand of a division. *)
Definition int_operand (a : Z) : float :=
  match a with
  | Z0 => S754_zero false
  | Zpos p => S754_finite false p 0
  | Zneg p => S754_finite true p 0
  end.

(** The least magnitude that rounds to 2^1024: the midpoint between the
    largest double and 2^1024. *)
Definition overflow_threshold : Z := 2 ^ 1024 - 2 ^ 970.

(** Python's [a / b] on integers: the correctly rounded quotient,
    [ZeroDivisionError] on a zero divisor and [OverflowError] when the
    quotient is too large for a float. *)
Definition int_truediv (a b : Z) : result float :=
  if b =? 0 then Raise ZeroDivisionError
  else if Z.abs b * overflow_threshold <=? Z.abs a then Raise OverflowError
  else Ok (fdiv (int_operand a) (int_operand b)).

(** [np.mean(x)] of a two-element sequence: the sum in double precision,
    accumulated from [0.0], then a division by the number of elements.
    NumPy divisions do not raise. *)
Definition np_mean (x : float * float) : float :=
  fdiv (fadd (fadd zero (fst x)) (snd x)) two.

(** ** The instance, the store and the world *)

(** A hypothesis is the content of a list of floats; a list variable holds
    the location of a list object. *)
Abbreviation hypothesis := (list float) (only parsing).
Abbreviation loc := nat (only parsing).

(** The attributes set by [__init__]. *)
Record TwoHanded : Type := mkTwoHanded {
  ranges : list (float * float);
  leftPoints : Z;
  rightPoints : Z
}.

Record world : Type := mkWorld {
  self : TwoHanded;              (* the instance the methods are called on *)
  heap : list hypothesis;        (* list objects, by allocation index *)
  rng : nat;                     (* calls of [r.uniform] so far *)
  evals : list hypothesis        (* arguments of the objective calls, latest first *)
}.

Definition set_self (s : TwoHanded) (w : world) : world :=
  mkWorld s (heap w) (rng w) (evals w).
Definition set_heap (h : list hypothesis) (w : world) : world :=
  mkWorld (self w) h (rng w) (evals w).
Definition set_rng (n : nat) (w : world) : world :=
  mkWorld (self w) (heap w) n (evals w).
Definition set_evals (l : list hypothesis) (w : world) : world :=
  mkWorld (self w) (heap w) (rng w) l.

(** ** Computations *)

Definition M (A : Type) : Type := world -> result A * world.

Definition ret {A} (a : A) : M A := fun w => (Ok a, w).

Definition bind {A B} (m : M A) (k : A -> M B) : M B :=
  fun w => match m w with
           | (Ok a, w') => k a w'
           | (Raise e, w') => (Raise e, w')
           end.

Definition raise {A} (e : exn) : M A := fun w => (Raise e, w).

Definition lift {A} (r : result A) : M A := fun w => (r, w).

Declare Scope py_scope.
Delimit Scope py_scope with py.
Notation "x <- c1 ;; c2" := (bind c1 (fun x => c2))
  (at level 100, c1 at next level, right associativity) : py_scope.
Notation "c1 ;; c2" := (bind c1 (fun _ => c2))
  (at level 100, right associativity) : py_scope.
Local Open Scope py_scope.

(** [for x in xs: body x] *)
Fixpoint for_each {A} (xs : list A) (body : A -> M unit) : M unit :=
  match xs with
  | [] => ret tt
  | x :: xs' => body x ;; for_each xs' body
  end.

(** [range(n)] *)
Definition range (n : nat) : list nat := seq 0 n.

(** *** List objects *)

(** A new list object with the given content. *)
Definition alloc (xs : hypothesis) : M loc :=
  fun w => (Ok (length (heap w)), set_heap (heap w ++ [xs]) w).

(** The content of a list object. *)
Definition deref (p : loc) : M hypothesis :=
  fun w => match heap w !! p with
           | Some xs => (Ok xs, w)
           | None => (Raise DanglingReference, w)
           end.

Definition store (p : loc) (xs : hypothesis) : M unit :=
  fun w => (Ok tt, set_heap (<[p := xs]> (heap w)) w).

(** [len(p)] *)
Definition len (p : loc) : M nat :=
  xs <- deref p ;; ret (length xs).

(** [p[i]] for a natural index. *)
Definition getitem (p : loc) (i : nat) : M float :=
  xs <- deref p ;;
  match xs !! i with
  | Some x => ret x
  | None => raise IndexError
  end.

(** [p[i] = v] for a natural index. *)
Definition setitem (p : loc) (i : nat) (v : float) : M unit :=
  xs <- deref p ;;
  if (i <? length xs)%nat then store p (<[i := v]> xs) else raise IndexError.

(** [p.append(v)] *)
Definition append (p : loc) (v : float) : M unit :=
  xs <- deref p ;; store p (xs ++ [v]).

(** [[x for x in p]]: a new list object with the same content. *)
Definition clone (p : loc) : M loc :=
  xs <- deref p ;; alloc xs.

(** A call of the objective function on a list object. *)
Definition call (f : hypothesis -> float) (p : loc) : M float :=
  xs <- deref p ;;
  fun w => (Ok (f xs), set_evals (xs :: evals w) w).

(** ** The class [TwoHanded] *)

(** [TwoHanded(ranges, leftPoints, rightPoints)]: [__init__] stores its
    three arguments and does nothing else. *)
Definition __init__ (ranges : list (float * float)) (leftPoints rightPoints : Z)
  : result TwoHanded :=
  Ok (mkTwoHanded ranges leftPoints rightPoints).

(** The two strategies: ["L"] is random search, ["R"] the gradient step. *)
Inductive hand : Type := L | R.

Definition other (h : hand) : hand :=
  match h with L => R | R => L end.

Definition points (h : hand) (s : TwoHanded) : Z :=
  match h with L => leftPoints s | R => rightPoints s end.

(** The local variables [currentX] and [currentY] of [optimize]. *)
Record best : Type := mkBest {
  currentX : option loc;
  currentY : float
}.

Definition get_self : M TwoHanded := fun w => (Ok (self w), w).

(** [self.leftPoints += 1] *)
Definition incr_leftPoints : M unit :=
  fun w =>
    let s := self w in
    (Ok tt, set_self (mkTwoHanded (ranges s) (leftPoints s + 1) (rightPoints s)) w).

(** [self.rightPoints += 1] *)
Definition incr_rightPoints : M unit :=
  fun w =>
    let s := self w in
    (Ok tt, set_self (mkTwoHanded (ranges s) (leftPoints s) (rightPoints s + 1)) w).

Section Methods.

(** The value of the [k]-th call of [r.uniform] with bounds [a] and [b]. *)
Variable uniform : nat -> float -> float -> float.

(** [r.uniform(a, b)] *)
Definition r_uniform (a b : float) : M float :=
  fun w => (Ok (uniform (rng w) a b), set_rng (S (rng w)) w).

Definition selectLeftOrRight : M hand :=
  s <- get_self ;;
  probLeft <- lift (int_truediv (leftPoints s) (leftPoints s + rightPoints s)) ;;
  u <- r_uniform zero one ;;
  if py_lt u probLeft then ret L else ret R.

Definition generateRandomHypothesis : M loc :=
  output <- alloc [] ;;
  s <- get_self ;;
  for_each (ranges s) (fun x =>
    u <- r_uniform (fst x) (snd x) ;;
    append output u) ;;
  ret output.

Definition gradientStep (objectiveFunction : hypothesis -> float)
    (currentX : loc) (dx learnRate : float) : M loc :=
  gradientVector <- alloc [] ;;
  n <- len currentX ;;
  for_each (range n) (fun i =>
    cloneX <- clone currentX ;;
    Y1 <- call objectiveFunction cloneX ;;
    c <- getitem cloneX i ;;
    setitem cloneX i (fadd c dx) ;;
    Y2 <- call objectiveFunction cloneX ;;
    g <- lift (float_truediv (fsub Y2 Y1) dx) ;;
    append gradientVector g) ;;
  outputX <- clone currentX ;;
  m <- len outputX ;;
  for_each (range m) (fun i =>
    o <- getitem outputX i ;;
    g <- getitem gradientVector i ;;
    setitem outputX i (fadd o (fmul g learnRate))) ;;
  ret outputX.

(** One iteration of the loop of [optimize]. *)
Definition optimize_body (objectiveFunction : hypothesis -> float) (b : best)
  : M best :=
  leftRightDecision <- selectLeftOrRight ;;
  match leftRightDecision with
  | L =>
      newX <- generateRandomHypothesis ;;
      newY <- call objectiveFunction newX ;;
      if py_gt newY (currentY b) then
        incr_leftPoints ;; ret (mkBest (Some newX) newY)
      else
        incr_rightPoints ;; ret b
  | R =>
      cur <- match currentX b with
             | None => s <- get_self ;; alloc (map np_mean (ranges s))
             | Some p => ret p
             end ;;
      newX <- gradientStep objectiveFunction cur default_dx default_learnRate ;;
      newY <- call objectiveFunction newX ;;
      if py_gt newY (currentY b) then
        incr_rightPoints ;; ret (mkBest (Some newX) newY)
      else
        incr_leftPoints ;; ret (mkBest (Some cur) (currentY b))
  end.

(** [for i in range(numIterations): ...] *)
Fixpoint optimize_loop (objectiveFunction : hypothesis -> float)
    (numIterations : nat) (b : best) : M best :=
  match numIterations with
  | O => ret b
  | S n => b' <- optimize_body objectiveFunction b ;;
           optimize_loop objectiveFunction n b'
  end.

(** The locals of [optimize] before the first iteration. *)
Definition initial_best : best := mkBest None neg_inf.

Definition optimize (objectiveFunction : hypothesis -> float)
    (numIterations : nat) : M (option loc) :=
  b <- optimize_loop objectiveFunction numIterations initial_best ;;
  ret (currentX b).

End Methods.

(** * Vocabulary of the properties *)

(** ** The gradient step *)

(** [x] with coordinate [i] perturbed by [+dx]. *)
Definition perturb (x : hypothesis) (i : nat) (dx : float) : hypothesis :=
  match x !! i with
  | Some c => <[i := fadd c dx]> x
  | None => x
  end.

(** The forward difference quotient of [f] at [x] along coordinate [i]. *)
Definition forward_difference (f : hypothesis -> float) (x : hypothesis)
    (dx : float) (i : nat) : float :=
  fdiv (fsub (f (perturb x i dx)) (f x)) dx.

(** The body of the first loop of [gradientStep], for the gradient vector
    at [g]. *)
Definition gradient_body (f : hypothesis -> float) (p g : loc) (dx : float)
    (i : nat) : M unit :=
  cloneX <- clone p ;;
  Y1 <- call f cloneX ;;
  c <- getitem cloneX i ;;
  setitem cloneX i (fadd c dx) ;;
  Y2 <- call f cloneX ;;
  q <- lift (float_truediv (fsub Y2 Y1) dx) ;;
  append g q.

(** The body of its second loop. *)
Definition ascent_body (o g : loc) (learnRate : float) (i : nat) : M unit :=
  o_i <- getitem o i ;;
  g_i <- getitem g i ;;
  setitem o i (fadd o_i (fmul g_i learnRate)).

(** The point the specification describes, [x'_i = x_i + learnRate * g_i]
    with [g] the vector of forward differences. *)
Definition ascended (f : hypothesis -> float) (x : hypothesis)
    (dx learnRate : float) : hypothesis :=
  imap (fun i x_i => fadd x_i (fmul learnRate (forward_difference f x dx i))) x.

(** The points the objective is evaluated at during one gradient step, in
    the order of the calls. *)
Definition gradient_evaluations (x : hypothesis) (dx : float) : list hypothesis :=
  flat_map (fun i => [x; perturb x i dx]) (range (length x)).

(** ** Selection, candidates and runs *)

(** [reward h]: the counter of strategy [h] goes up by one. *)
Definition reward (h : hand) (s : TwoHanded) : TwoHanded :=
  match h with
  | L => mkTwoHanded (ranges s) (leftPoints s + 1) (rightPoints s)
  | R => mkTwoHanded (ranges s) (leftPoints s) (rightPoints s + 1)
  end.

(** The content of the list [currentX] refers to. *)
Definition hypothesis_of (b : best) (w : world) : option hypothesis :=
  match currentX b with
  | Some p => heap w !! p
  | None => None
  end.

(** [currentX] is [None] or refers to a list object of the store. *)
Definition best_valid (b : best) (w : world) : Prop :=
  match currentX b with
  | Some p => (p < length (heap w))%nat
  | None => True
  end.

(** [leftPoints / (leftPoints + rightPoints)] as a float. *)
Definition probLeft (s : TwoHanded) : float :=
  fdiv (int_operand (leftPoints s)) (int_operand (leftPoints s + rightPoints s)).

(** The midpoint seed, [[np.mean(x) for x in self.ranges]]. *)
Definition midpoint (s : TwoHanded) : hypothesis := map np_mean (ranges s).

(** The draws of one call of [generateRandomHypothesis], the first of
    them being draw number [k]. *)
Fixpoint sample (uniform : nat -> float -> float -> float) (k : nat)
    (rs : list (float * float)) : hypothesis :=
  match rs with
  | [] => []
  | x :: rs' => uniform k (fst x) (snd x) :: sample uniform (S k) rs'
  end.

(** The point the gradient step starts from: the best hypothesis, or the
    midpoint seed when there is none yet. *)
Definition base_point (b : best) (w : world) : hypothesis :=
  match hypothesis_of b w with
  | Some x => x
  | None => midpoint (self w)
  end.

(** The points at which the objective is evaluated while strategy [h]
    produces its candidate, in the order of the calls. *)
Definition candidate_evaluations (h : hand) (b : best) (w : world) : list hypothesis :=
  match h with
  | L => []
  | R => gradient_evaluations (base_point b w) default_dx
  end.

(** The candidate of strategy [h] in an iteration that starts in world
    [w] with the locals [b]. *)
Definition candidate (uniform : nat -> float -> float -> float)
    (f : list float -> float) (h : hand) (b : best) (w : world) : hypothesis :=
  match h with
  | L => sample uniform (S (rng w)) (ranges (self w))
  | R => ascended f (base_point b w) default_dx default_learnRate
  end.

(** What holds of the locals and the world between two iterations. *)
Definition run_inv (b : best) (w : world) : Prop :=
  best_valid b w /\ is_nan (currentY b) = false.

Definition weights_positive (w : world) : Prop :=
  0 < leftPoints (self w) /\ 0 < rightPoints (self w).

Definition total_points (s : TwoHanded) : Z := leftPoints s + rightPoints s.

(** ** Concrete instances *)

Definition half : float := S754_finite false 4503599627370496 (-53).
Definition quarter : float := S754_finite false 4503599627370496 (-54).
Definition three_quarters : float := S754_finite false 6755399441055744 (-53).
Definition six_tenths : float := S754_finite false 5404319552844595 (-53).

(** CPython's [random.uniform(a, b)] is [a + (b - a) * random()]; this is
    it for a generator whose [random()] always returns [u]. *)
Definition constant_uniform (u : float) : nat -> float -> float -> float :=
  fun _ a b => fadd a (fmul (fsub b a) u).

(** [TwoHanded([[0, 1]])] *)
Definition unit_interval : TwoHanded := mkTwoHanded [(zero, one)] 1 1.

(** The world right after the construction of the instance [s]. *)
Definition fresh_world (s : TwoHanded) : world := mkWorld s [] 0 [].

(** A world whose only list object is [x], at location [0]. *)
Definition world_with (x : list float) : world := mkWorld unit_interval [x] 0 [].

Definition const_objective (y : float) : list float -> float := fun _ => y.

(** ** The order of floats *)

(** A key whose lexicographic order is the order [SFcompare] decides on
    floats that are not NaN: the class, then the exponent, then the
    mantissa, the last two negated for negative numbers. *)
Definition float_key (x : float) : Z * Z * Z :=
  match x with
  | S754_nan => (0, 0, 0)
  | S754_infinity true => (-2, 0, 0)
  | S754_infinity false => (2, 0, 0)
  | S754_zero _ => (0, 0, 0)
  | S754_finite true m e => (-1, - e, - Zpos m)
  | S754_finite false m e => (1, e, Zpos m)
  end.

Definition lex_lt (a b : Z * Z * Z) : Prop :=
  fst (fst a) < fst (fst b) \/
  (fst (fst a) = fst (fst b) /\
   (snd (fst a) < snd (fst b) \/
    (snd (fst a) = snd (fst b) /\ snd a < snd b))).

Definition lex_le (a b : Z * Z * Z) : Prop := lex_lt a b \/ a = b.

(** Equal, or both a zero: what adding a zero does to a float. *)
Definition same_value (a b : float) : Prop :=
  a = b \/ (is_zero a = true /\ is_zero b = true).

(** ** Invariants of a run *)

(** The number of coordinates of the search space, [len(self.ranges)]. *)
Definition dimension (w : world) : nat := length (ranges (self w)).

(** The best hypothesis, when there is one, has one coordinate per range. *)
Definition best_dimension (b : best) (w : world) : Prop :=
  forall x, hypothesis_of b w = Some x -> length x = dimension w.

(** The best score is the initial [-inf], or the objective at the best
    hypothesis. *)
Definition best_consistent (f : list float -> float) (b : best) (w : world) : Prop :=
  currentY b = neg_inf \/
  exists x, hypothesis_of b w = Some x /\ f x = currentY b.

Definition strong_inv (f : list float -> float) (b : best) (w : world) : Prop :=
  run_inv b w /\ best_dimension b w /\ best_consistent f b w.

(** The draws an iteration with strategy [h] consumes. *)
Definition draws_of (h : hand) (d : nat) : nat :=
  match h with L => S d | R => 1 end.

(** The objective calls an iteration with strategy [h] makes. *)
Definition calls_of (h : hand) (d : nat) : nat :=
  match h with L => 1 | R => S (2 * d) end.

(** * Reasoning about computations *)

Lemma bind_ok {A B} (m : M A) (k : A -> M B) w a w1 res :
  m w = (Ok a, w1) -> k a w1 = res -> bind m k w = res.
Proof. intros Hm Hk. unfold bind. rewrite Hm. exact Hk. Qed.

Lemma bind_raise {A B} (m : M A) (k : A -> M B) w e w1 :
  m w = (Raise e, w1) -> bind m k w = (Raise e, w1).
Proof. intros Hm. unfold bind. rewrite Hm. reflexivity. Qed.

Lemma bind_inv {A B} (m : M A) (k : A -> M B) w r w' :
  bind m k w = (r, w') ->
  (exists a w1, m w = (Ok a, w1) /\ k a w1 = (r, w')) \/
  (exists e, m w = (Raise e, w') /\ r = Raise e).
Proof.
  unfold bind. destruct (m w) as [[a|e] w1]; intros H.
  - left. eauto.
  - right. inversion H; subst. eauto.
Qed.

Lemma deref_ok p xs w : heap w !! p = Some xs -> deref p w = (Ok xs, w).
Proof. intros H. unfold deref. rewrite H. reflexivity. Qed.

Lemma len_ok p xs w : heap w !! p = Some xs -> len p w = (Ok (length xs), w).
Proof. intros H. unfold len. eapply bind_ok; [apply deref_ok, H | reflexivity]. Qed.

Lemma clone_ok p xs w :
  heap w !! p = Some xs ->
  clone p w = (Ok (length (heap w)), set_heap (heap w ++ [xs]) w).
Proof. intros H. unfold clone. eapply bind_ok; [apply deref_ok, H | reflexivity]. Qed.

Lemma call_ok f p xs w :
  heap w !! p = Some xs ->
  call f p w = (Ok (f xs), set_evals (xs :: evals w) w).
Proof. intros H. unfold call. eapply bind_ok; [apply deref_ok, H | reflexivity]. Qed.

Lemma getitem_ok p xs i x w :
  heap w !! p = Some xs -> xs !! i = Some x -> getitem p i w = (Ok x, w).
Proof.
  intros H Hi. unfold getitem. eapply bind_ok; [apply deref_ok, H |].
  rewrite Hi. reflexivity.
Qed.

Lemma setitem_ok p xs i v w :
  heap w !! p = Some xs -> (i < length xs)%nat ->
  setitem p i v w = (Ok tt, set_heap (<[p := <[i := v]> xs]> (heap w)) w).
Proof.
  intros H Hi. unfold setitem. eapply bind_ok; [apply deref_ok, H |].
  apply Nat.ltb_lt in Hi. rewrite Hi. reflexivity.
Qed.

Lemma append_ok p xs v w :
  heap w !! p = Some xs ->
  append p v w = (Ok tt, set_heap (<[p := xs ++ [v]]> (heap w)) w).
Proof. intros H. unfold append. eapply bind_ok; [apply deref_ok, H | reflexivity]. Qed.

(** Lookups in a store after an allocation or an update. *)
Lemma lookup_new (h : list hypothesis) xs : (h ++ [xs]) !! length h = Some xs.
Proof. apply list_lookup_middle. reflexivity. Qed.

Lemma lookup_old (h : list hypothesis) xs l :
  (l < length h)%nat -> (h ++ [xs]) !! l = h !! l.
Proof. intros. apply lookup_app_l. assumption. Qed.

Lemma lookup_live (h : list hypothesis) l xs : h !! l = Some xs -> (l < length h)%nat.
Proof. apply lookup_lt_Some. Qed.

(** * The gradient step *)

Lemma perturb_lookup x i c dx : x !! i = Some c -> perturb x i dx = <[i := fadd c dx]> x.
Proof. intros H. unfold perturb. rewrite H. reflexivity. Qed.

Lemma gradient_body_ok f p g dx i x c gv w :
  heap w !! p = Some x -> heap w !! g = Some gv -> x !! i = Some c ->
  is_zero dx = false ->
  gradient_body f p g dx i w =
    (Ok tt,
     mkWorld (self w)
       (<[g := gv ++ [forward_difference f x dx i]]>
          (<[length (heap w) := perturb x i dx]> (heap w ++ [x])))
       (rng w)
       (perturb x i dx :: x :: evals w)).
Proof.
  intros Hp Hg Hi Hdx. unfold gradient_body.
  pose proof (lookup_live _ _ _ Hg) as Hglt.
  eapply bind_ok; [apply clone_ok, Hp |].
  eapply bind_ok; [apply call_ok; simpl; apply lookup_new |].
  eapply bind_ok; [eapply getitem_ok; [simpl; apply lookup_new | exact Hi] |].
  eapply bind_ok;
    [eapply setitem_ok; [simpl; apply lookup_new | eapply lookup_lt_Some, Hi] |].
  eapply bind_ok.
  { apply call_ok. simpl. apply list_lookup_insert_eq.
    rewrite length_app. simpl. lia. }
  eapply bind_ok.
  { unfold lift, float_truediv. rewrite Hdx. reflexivity. }
  erewrite append_ok.
  - unfold forward_difference. rewrite (perturb_lookup _ _ _ _ Hi). reflexivity.
  - simpl. rewrite list_lookup_insert_ne by lia.
    rewrite lookup_old by assumption. exact Hg.
Qed.

Lemma gradient_body_zero_dx f p g dx i x c w :
  heap w !! p = Some x -> x !! i = Some c -> is_zero dx = true ->
  gradient_body f p g dx i w =
    (Raise ZeroDivisionError,
     mkWorld (self w)
       (<[length (heap w) := perturb x i dx]> (heap w ++ [x]))
       (rng w)
       (perturb x i dx :: x :: evals w)).
Proof.
  intros Hp Hi Hdx. unfold gradient_body.
  eapply bind_ok; [apply clone_ok, Hp |].
  eapply bind_ok; [apply call_ok; simpl; apply lookup_new |].
  eapply bind_ok; [eapply getitem_ok; [simpl; apply lookup_new | exact Hi] |].
  eapply bind_ok;
    [eapply setitem_ok; [simpl; apply lookup_new | eapply lookup_lt_Some, Hi] |].
  eapply bind_ok.
  { apply call_ok. simpl. apply list_lookup_insert_eq.
    rewrite length_app. simpl. lia. }
  erewrite bind_raise.
  - rewrite (perturb_lookup _ _ _ _ Hi). reflexivity.
  - unfold lift, float_truediv. rewrite Hdx. reflexivity.
Qed.

Lemma gradient_loop_ok f p g dx x :
  p <> g -> is_zero dx = false ->
  forall (idx : list nat) gv w,
    heap w !! p = Some x -> heap w !! g = Some gv ->
    Forall (fun i => (i < length x)%nat) idx ->
    exists w',
      for_each idx (gradient_body f p g dx) w = (Ok tt, w') /\
      heap w' !! g = Some (gv ++ map (forward_difference f x dx) idx) /\
      (forall l, (l < length (heap w))%nat -> l <> g -> heap w' !! l = heap w !! l) /\
      (length (heap w) <= length (heap w'))%nat /\
      self w' = self w /\ rng w' = rng w /\
      evals w' = rev (flat_map (fun i => [x; perturb x i dx]) idx) ++ evals w.
Proof.
  intros Hpg Hdx idx. induction idx as [|i idx IH]; intros gv w Hp Hg Hall.
  - exists w. simpl. rewrite app_nil_r. repeat split; auto.
  - inversion Hall as [|? ? Hi Hall']; subst.
    destruct (lookup_lt_is_Some_2 x i Hi) as [c Hc].
    pose proof (lookup_live _ _ _ Hg) as Hglt.
    pose proof (lookup_live _ _ _ Hp) as Hplt.
    pose proof (gradient_body_ok f p g dx i x c gv w Hp Hg Hc Hdx) as Hbody.
    set (w1 := mkWorld _ _ _ _) in Hbody.
    assert (Hp1 : heap w1 !! p = Some x).
    { simpl. rewrite !list_lookup_insert_ne by lia.
      rewrite lookup_old by assumption. exact Hp. }
    assert (Hg1 : heap w1 !! g = Some (gv ++ [forward_difference f x dx i])).
    { simpl. apply list_lookup_insert_eq.
      rewrite length_insert, length_app. simpl. lia. }
    destruct (IH _ w1 Hp1 Hg1 Hall') as (w' & Hrun & Hg' & Hfr & Hlen & Hs & Hr & He).
    exists w'. split; [| split; [| split; [| split; [| split; [| split]]]]].
    + simpl. eapply bind_ok; [exact Hbody | exact Hrun].
    + rewrite Hg'. rewrite <- app_assoc. reflexivity.
    + intros l Hl Hlg. rewrite Hfr.
      * simpl. rewrite !list_lookup_insert_ne by lia.
        apply lookup_old. assumption.
      * simpl. rewrite !length_insert, length_app. simpl. lia.
      * assumption.
    + revert Hlen. simpl. rewrite !length_insert, length_app. simpl. lia.
    + rewrite Hs. reflexivity.
    + rewrite Hr. reflexivity.
    + rewrite He. simpl. rewrite <- !app_assoc. reflexivity.
Qed.

Lemma gradient_loop_ok' f p g dx x :
  p <> g ->
  forall (idx : list nat) gv w,
    is_zero dx = false \/ idx = [] ->
    heap w !! p = Some x -> heap w !! g = Some gv ->
    Forall (fun i => (i < length x)%nat) idx ->
    exists w',
      for_each idx (gradient_body f p g dx) w = (Ok tt, w') /\
      heap w' !! g = Some (gv ++ map (forward_difference f x dx) idx) /\
      (forall l, (l < length (heap w))%nat -> l <> g -> heap w' !! l = heap w !! l) /\
      (length (heap w) <= length (heap w'))%nat /\
      self w' = self w /\ rng w' = rng w /\
      evals w' = rev (flat_map (fun i => [x; perturb x i dx]) idx) ++ evals w.
Proof.
  intros Hpg idx gv w [Hdx | ->] Hp Hg Hall.
  - eapply gradient_loop_ok; eassumption.
  - exists w. simpl. rewrite app_nil_r. repeat split; auto.
Qed.

Lemma ascent_body_ok o g lr i out gv o_i g_i w :
  heap w !! o = Some out -> heap w !! g = Some gv ->
  out !! i = Some o_i -> gv !! i = Some g_i ->
  ascent_body o g lr i w =
    (Ok tt, set_heap (<[o := <[i := fadd o_i (fmul g_i lr)]> out]> (heap w)) w).
Proof.
  intros Ho Hg Hoi Hgi. unfold ascent_body.
  eapply bind_ok; [eapply getitem_ok; eassumption |].
  eapply bind_ok; [eapply getitem_ok; eassumption |].
  eapply setitem_ok; [eassumption | eapply lookup_lt_Some, Hoi].
Qed.

Lemma ascent_loop_ok o g lr gv :
  o <> g ->
  forall (idx : list nat) (out : hypothesis) w,
    heap w !! o = Some out -> heap w !! g = Some gv ->
    NoDup idx ->
    Forall (fun i => (i < length out)%nat /\ (i < length gv)%nat) idx ->
    exists w' (out' : hypothesis),
      for_each idx (ascent_body o g lr) w = (Ok tt, w') /\
      heap w' !! o = Some out' /\
      length out' = length out /\
      (forall i o_i g_i, out !! i = Some o_i -> gv !! i = Some g_i ->
         out' !! i = Some (if bool_decide (i ∈ idx)
                           then fadd o_i (fmul g_i lr) else o_i)) /\
      (forall l, l <> o -> heap w' !! l = heap w !! l) /\
      length (heap w') = length (heap w) /\
      self w' = self w /\ rng w' = rng w /\ evals w' = evals w.
Proof.
  intros Hog idx. induction idx as [|i idx IH]; intros out w Ho Hg Hnd Hall.
  - exists w, out.
    split; [reflexivity |]. split; [assumption |]. split; [reflexivity |].
    split; [| auto 10].
    intros i o_i g_i Hoi _.
    rewrite bool_decide_eq_false_2 by apply not_elem_of_nil. assumption.
  - inversion Hall as [|? ? [Hio Hig] Hall']; subst.
    apply NoDup_cons in Hnd as [Hni Hnd].
    destruct (lookup_lt_is_Some_2 out i Hio) as [o_i Hoi].
    destruct (lookup_lt_is_Some_2 gv i Hig) as [g_i Hgi].
    pose proof (lookup_live _ _ _ Ho) as Holt.
    pose proof (ascent_body_ok o g lr i out gv o_i g_i w Ho Hg Hoi Hgi) as Hbody.
    set (out1 := <[i := fadd o_i (fmul g_i lr)]> out) in *.
    set (w1 := set_heap _ w) in Hbody.
    assert (Ho1 : heap w1 !! o = Some out1).
    { simpl. apply list_lookup_insert_eq. assumption. }
    assert (Hg1 : heap w1 !! g = Some gv).
    { simpl. rewrite list_lookup_insert_ne by assumption. exact Hg. }
    assert (Hall1 : Forall (fun i => (i < length out1)%nat /\ (i < length gv)%nat) idx).
    { unfold out1. rewrite length_insert. exact Hall'. }
    destruct (IH out1 w1 Ho1 Hg1 Hnd Hall1)
      as (w' & out' & Hrun & Ho' & Hlen & Hval & Hfr & Hhl & Hs & Hr & He).
    exists w', out'. repeat apply conj.
    + simpl. eapply bind_ok; [exact Hbody | exact Hrun].
    + exact Ho'.
    + rewrite Hlen. unfold out1. apply length_insert.
    + intros j o_j g_j Hoj Hgj.
      destruct (decide (j = i)) as [-> | Hji].
      * rewrite Hoj in Hoi. inversion Hoi; subst o_j.
        rewrite Hgj in Hgi. inversion Hgi; subst g_j.
        rewrite (Hval i (fadd o_i (fmul g_i lr)) g_i).
        -- rewrite (bool_decide_eq_false_2 _ Hni).
           rewrite bool_decide_eq_true_2 by (left).
           reflexivity.
        -- unfold out1. apply list_lookup_insert_eq. assumption.
        -- assumption.
      * rewrite (Hval j o_j g_j).
        -- f_equal. destruct (decide (j ∈ idx)) as [Hin | Hnin].
           ++ rewrite !bool_decide_eq_true_2; [reflexivity | right; assumption | assumption].
           ++ rewrite !bool_decide_eq_false_2; [reflexivity | | assumption].
              intros Hin. apply elem_of_cons in Hin as [? | ?]; contradiction.
        -- unfold out1. rewrite list_lookup_insert_ne by auto. assumption.
        -- assumption.
    + intros l Hl. rewrite Hfr by assumption. simpl.
      apply list_lookup_insert_ne. auto.
    + rewrite Hhl. simpl. apply length_insert.
    + rewrite Hs. reflexivity.
    + rewrite Hr. reflexivity.
    + rewrite He. reflexivity.
Qed.

Lemma fmul_comm x y : fmul x y = fmul y x.
Proof.
  unfold fmul, SFmul.
  destruct x as [sx|sx| |sx mx ex], y as [sy|sy| |sy my ey];
    try reflexivity; try (rewrite (xorb_comm sx sy); reflexivity).
  rewrite (xorb_comm sx sy), (Pos.mul_comm mx my), (Z.add_comm ex ey).
  reflexivity.
Qed.

Lemma gradient_evaluations_length x dx :
  length (gradient_evaluations x dx) = (2 * length x)%nat.
Proof.
  unfold gradient_evaluations, range.
  assert (H : forall n k,
             length (flat_map (fun i => [x; perturb x i dx]) (seq k n)) = (2 * n)%nat).
  { induction n as [|n IH]; intros k; simpl.
    - reflexivity.
    - rewrite IH. lia. }
  apply H.
Qed.

Lemma range_bounded n : Forall (fun i => (i < n)%nat) (range n).
Proof. apply Forall_forall. intros i Hi. apply elem_of_seq in Hi. lia. Qed.

Lemma gradientStep_unfold f p dx lr :
  gradientStep f p dx lr =
    (g <- alloc [] ;;
     n <- len p ;;
     for_each (range n) (gradient_body f p g dx) ;;
     o <- clone p ;;
     m <- len o ;;
     for_each (range m) (ascent_body o g lr) ;;
     ret o).
Proof. reflexivity. Qed.

(** What one gradient step does when it does not divide by zero. *)
Lemma gradientStep_ok f p dx lr x w :
  heap w !! p = Some x ->
  is_zero dx = false \/ x = [] ->
  exists q w',
    gradientStep f p dx lr w = (Ok q, w') /\
    (length (heap w) <= q)%nat /\
    heap w' !! q = Some (ascended f x dx lr) /\
    (forall l, (l < length (heap w))%nat -> heap w' !! l = heap w !! l) /\
    self w' = self w /\ rng w' = rng w /\
    evals w' = rev (gradient_evaluations x dx) ++ evals w.
Proof.
  intros Hp Hdx.
  pose proof (lookup_live _ _ _ Hp) as Hplt.
  set (g := length (heap w)).
  set (w1 := set_heap (heap w ++ [[]]) w).
  assert (Hpg : p <> g) by (unfold g; lia).
  assert (Hp1 : heap w1 !! p = Some x).
  { simpl. rewrite lookup_old by assumption. exact Hp. }
  assert (Hg1 : heap w1 !! g = Some []) by (simpl; apply lookup_new).
  assert (Hdx' : is_zero dx = false \/ range (length x) = []).
  { destruct Hdx as [? | ->]; [left | right]; auto. }
  destruct (gradient_loop_ok' f p g dx x Hpg (range (length x)) [] w1
              Hdx' Hp1 Hg1 (range_bounded _))
    as (w2 & Hrun1 & Hg2 & Hfr2 & Hlen2 & Hs2 & Hr2 & He2).
  simpl in Hg2.
  assert (Hl1 : length (heap w1) = S (length (heap w))).
  { simpl. rewrite length_app. simpl. lia. }
  assert (Hp2 : heap w2 !! p = Some x).
  { rewrite Hfr2; [exact Hp1 | lia | exact Hpg]. }
  set (o := length (heap w2)).
  set (w3 := set_heap (heap w2 ++ [x]) w2).
  assert (Hog : o <> g) by (unfold o, g; lia).
  assert (Ho3 : heap w3 !! o = Some x) by (simpl; apply lookup_new).
  assert (Hg3 : heap w3 !! g = Some (map (forward_difference f x dx) (range (length x)))).
  { simpl. rewrite lookup_old; [exact Hg2 | unfold g; lia]. }
  assert (Hall : Forall (fun i => (i < length x)%nat /\
                   (i < length (map (forward_difference f x dx) (range (length x))))%nat)
                   (range (length x))).
  { eapply Forall_impl; [apply range_bounded |].
    intros i Hi. simpl in Hi. rewrite length_map. unfold range. rewrite length_seq. lia. }
  destruct (ascent_loop_ok o g lr _ Hog (range (length x)) x w3 Ho3 Hg3
              (NoDup_seq _ _) Hall)
    as (w4 & out' & Hrun2 & Ho4 & Hlen4 & Hval & Hfr4 & Hhl4 & Hs4 & Hr4 & He4).
  exists o, w4. repeat apply conj.
  - rewrite gradientStep_unfold.
    eapply bind_ok; [reflexivity |].
    eapply bind_ok; [apply len_ok, Hp1 |].
    eapply bind_ok; [exact Hrun1 |].
    eapply bind_ok; [apply clone_ok, Hp2 |].
    eapply bind_ok; [apply len_ok, Ho3 |].
    eapply bind_ok; [exact Hrun2 |].
    reflexivity.
  - unfold o. lia.
  - rewrite Ho4. f_equal. apply list_eq. intros i.
    unfold ascended. rewrite list_lookup_imap.
    destruct (x !! i) as [x_i|] eqn:Hxi; simpl.
    + pose proof (lookup_lt_Some _ _ _ Hxi) as Hi.
      assert (Hgi : map (forward_difference f x dx) (range (length x)) !! i
                    = Some (forward_difference f x dx i)).
      { rewrite list_lookup_fmap. unfold range.
        rewrite (lookup_seq_lt 0 (length x) i Hi). reflexivity. }
      rewrite (Hval i x_i _ Hxi Hgi).
      rewrite bool_decide_eq_true_2.
      * rewrite fmul_comm. reflexivity.
      * apply elem_of_seq. lia.
    + apply lookup_ge_None. rewrite Hlen4. apply lookup_ge_None. exact Hxi.
  - intros l Hl. rewrite Hfr4 by (unfold o; lia).
    simpl. rewrite lookup_old by lia.
    rewrite Hfr2; [| lia | unfold g; lia].
    simpl. apply lookup_old. assumption.
  - rewrite Hs4. simpl. rewrite Hs2. reflexivity.
  - rewrite Hr4. simpl. rewrite Hr2. reflexivity.
  - rewrite He4. simpl. rewrite He2. reflexivity.
Qed.

(** With a zero [dx] and a point of at least one coordinate, the first
    division of the first loop raises. *)
Lemma gradientStep_zero_dx f p dx lr x w :
  heap w !! p = Some x -> x <> [] -> is_zero dx = true ->
  exists w',
    gradientStep f p dx lr w = (Raise ZeroDivisionError, w') /\
    (forall l, (l < length (heap w))%nat -> heap w' !! l = heap w !! l) /\
    evals w' = [perturb x 0 dx; x] ++ evals w.
Proof.
  intros Hp Hx Hdx.
  pose proof (lookup_live _ _ _ Hp) as Hplt.
  destruct x as [|c x']; [contradiction |].
  set (x := c :: x') in *.
  set (w1 := set_heap (heap w ++ [[]]) w).
  assert (Hp1 : heap w1 !! p = Some x).
  { simpl. rewrite lookup_old by assumption. exact Hp. }
  pose proof (gradient_body_zero_dx f p (length (heap w)) dx 0 x c w1 Hp1
                eq_refl Hdx) as Hbody.
  eexists. repeat apply conj.
  - rewrite gradientStep_unfold.
    eapply bind_ok; [reflexivity |].
    eapply bind_ok; [apply len_ok, Hp1 |].
    apply bind_raise. simpl. apply bind_raise. exact Hbody.
  - intros l Hl. simpl.
    rewrite list_lookup_insert_ne by (rewrite length_app; simpl; lia).
    rewrite !lookup_old; [reflexivity | assumption | rewrite length_app; simpl; lia].
  - reflexivity.
Qed.

(** Whatever the outcome, a gradient step leaves every list object that
    existed before the call as it was, and a returned list is a new one. *)
Lemma gradientStep_frame f p dx lr x w r w' :
  heap w !! p = Some x ->
  gradientStep f p dx lr w = (r, w') ->
  (forall l, (l < length (heap w))%nat -> heap w' !! l = heap w !! l) /\
  (forall q, r = Ok q -> (length (heap w) <= q)%nat).
Proof.
  intros Hp Hrun.
  destruct (is_zero dx) eqn:Hdx; [destruct x as [|c x'] eqn:Hx |].
  - destruct (gradientStep_ok f p dx lr [] w Hp (or_intror eq_refl))
      as (q & w2 & Hrun2 & Hq & _ & Hfr & _).
    rewrite Hrun in Hrun2. inversion Hrun2; subst.
    split; [exact Hfr |]. intros q' Hq'. inversion Hq'; subst. exact Hq.
  - destruct (gradientStep_zero_dx f p dx lr (c :: x') w Hp) as (w2 & Hrun2 & Hfr & _);
      [discriminate | assumption |].
    rewrite Hrun in Hrun2. inversion Hrun2; subst.
    split; [exact Hfr |]. intros q' Hq'. discriminate.
  - destruct (gradientStep_ok f p dx lr x w Hp (or_introl Hdx))
      as (q & w2 & Hrun2 & Hq & _ & Hfr & _).
    rewrite Hrun in Hrun2. inversion Hrun2; subst.
    split; [exact Hfr |]. intros q' Hq'. inversion Hq'; subst. exact Hq.
Qed.

(** * Strategy selection and the random sampler *)

Lemma overflow_threshold_pos : 1 <= overflow_threshold.
Proof. vm_compute. discriminate. Qed.

Lemma int_truediv_pos l r :
  0 < l -> 0 < r ->
  int_truediv l (l + r) = Ok (fdiv (int_operand l) (int_operand (l + r))).
Proof.
  intros Hl Hr. unfold int_truediv.
  pose proof overflow_threshold_pos as HT.
  assert (Hz : (l + r =? 0) = false) by (apply Z.eqb_neq; lia).
  rewrite Hz.
  assert (Ho : (Z.abs (l + r) * overflow_threshold <=? Z.abs l) = false).
  { apply Z.leb_gt. rewrite !Z.abs_eq by lia.
    generalize dependent overflow_threshold. intros T HT. nia. }
  rewrite Ho. reflexivity.
Qed.

Section Selection.

Variable uniform : nat -> float -> float -> float.

Lemma selectLeftOrRight_pos w :
  0 < leftPoints (self w) -> 0 < rightPoints (self w) ->
  selectLeftOrRight uniform w =
    (Ok (if py_lt (uniform (rng w) zero one) (probLeft (self w)) then L else R),
     set_rng (S (rng w)) w).
Proof.
  intros Hl Hr. unfold selectLeftOrRight.
  eapply bind_ok; [reflexivity |].
  eapply bind_ok; [unfold lift; rewrite (int_truediv_pos _ _ Hl Hr); reflexivity |].
  eapply bind_ok; [reflexivity |].
  unfold probLeft. destruct (py_lt _ _); reflexivity.
Qed.

Lemma selectLeftOrRight_inv w r w1 :
  selectLeftOrRight uniform w = (r, w1) ->
  (exists h, r = Ok h /\ w1 = set_rng (S (rng w)) w) \/
  (exists e, r = Raise e /\ w1 = w).
Proof.
  unfold selectLeftOrRight, bind, get_self, lift, r_uniform, ret.
  destruct (int_truediv _ _) as [q|e]; intros H.
  - left. destruct (py_lt _ _); inversion H; subst; eauto.
  - right. inversion H; subst; eauto.
Qed.

Lemma sample_length k rs : length (sample uniform k rs) = length rs.
Proof. revert k. induction rs as [|x rs IH]; intros k; simpl; auto. Qed.

Lemma sample_loop_ok o :
  forall rs acc w,
    heap w !! o = Some acc ->
    for_each rs (fun x => u <- r_uniform uniform (fst x) (snd x) ;; append o u) w =
      (Ok tt,
       mkWorld (self w) (<[o := acc ++ sample uniform (rng w) rs]> (heap w))
         (rng w + length rs) (evals w)).
Proof.
  induction rs as [|x rs IH]; intros acc w Ho.
  - simpl. rewrite app_nil_r, Nat.add_0_r.
    rewrite (list_insert_id _ _ _ Ho). destruct w; reflexivity.
  - simpl. eapply bind_ok.
    { eapply bind_ok; [reflexivity |]. apply append_ok. simpl. exact Ho. }
    rewrite (IH (acc ++ [uniform (rng w) (fst x) (snd x)])).
    + simpl. rewrite list_insert_insert_eq, <- app_assoc. simpl.
      rewrite Nat.add_succ_r. reflexivity.
    + simpl. apply list_lookup_insert_eq. eapply lookup_live, Ho.
Qed.

Lemma generateRandomHypothesis_ok w :
  generateRandomHypothesis uniform w =
    (Ok (length (heap w)),
     mkWorld (self w) (heap w ++ [sample uniform (rng w) (ranges (self w))])
       (rng w + length (ranges (self w))) (evals w)).
Proof.
  unfold generateRandomHypothesis.
  eapply bind_ok; [reflexivity |].
  eapply bind_ok; [reflexivity |].
  eapply bind_ok; [apply (sample_loop_ok _ _ []); simpl; apply lookup_new |].
  simpl. unfold ret. rewrite insert_app_r_alt by lia.
  rewrite Nat.sub_diag. reflexivity.
Qed.

End Selection.

(** * One iteration of [optimize] *)

Section Iteration.

Variable uniform : nat -> float -> float -> float.
Variable f : list float -> float.

Lemma exploit_ok b cur x w :
  heap w !! cur = Some x ->
  let c := ascended f x default_dx default_learnRate in
  exists q w',
    (newX <- gradientStep f cur default_dx default_learnRate ;;
     newY <- call f newX ;;
     if py_gt newY (currentY b) then
       incr_rightPoints ;; ret (mkBest (Some newX) newY)
     else
       incr_leftPoints ;; ret (mkBest (Some cur) (currentY b))) w =
      (Ok (if py_gt (f c) (currentY b)
           then mkBest (Some q) (f c) else mkBest (Some cur) (currentY b)), w') /\
    heap w' !! q = Some c /\
    (forall l, (l < length (heap w))%nat -> heap w' !! l = heap w !! l) /\
    self w' = reward (if py_gt (f c) (currentY b) then R else L) (self w) /\
    rng w' = rng w /\
    evals w' = c :: rev (gradient_evaluations x default_dx) ++ evals w.
Proof.
  intros Hcur c.
  destruct (gradientStep_ok f cur default_dx default_learnRate x w Hcur
              (or_introl eq_refl))
    as (q & w2 & Hrun & Hq & Hc & Hfr & Hs & Hr & He).
  fold c in Hc.
  destruct (py_gt (f c) (currentY b)) eqn:Hgt.
  - exists q. eexists. split.
    { eapply bind_ok; [exact Hrun |].
      eapply bind_ok; [apply call_ok, Hc |].
      rewrite Hgt. eapply bind_ok; reflexivity. }
    simpl. rewrite Hs, Hr, He. auto.
  - exists q. eexists. split.
    { eapply bind_ok; [exact Hrun |].
      eapply bind_ok; [apply call_ok, Hc |].
      rewrite Hgt. eapply bind_ok; reflexivity. }
    simpl. rewrite Hs, Hr, He. auto.
Qed.

(** What an iteration does once the strategy has been selected. *)
Lemma optimize_body_ok b w h w1 :
  selectLeftOrRight uniform w = (Ok h, w1) ->
  best_valid b w ->
  let c := candidate uniform f h b w in
  let better := py_gt (f c) (currentY b) in
  exists b' w',
    optimize_body uniform f b w = (Ok b', w') /\
    currentY b' = (if better then f c else currentY b) /\
    hypothesis_of b' w' =
      (if better then Some c
       else match h with
            | L => hypothesis_of b w
            | R => Some (base_point b w)
            end) /\
    self w' = reward (if better then h else other h) (self w) /\
    evals w' = c :: rev (candidate_evaluations h b w) ++ evals w /\
    (forall l, (l < length (heap w))%nat -> heap w' !! l = heap w !! l) /\
    best_valid b' w'.
Proof.
  intros Hsel Hvalid c better.
  destruct (selectLeftOrRight_inv _ _ _ _ Hsel) as [(h' & Hh & ->) | (e & He & _)];
    [clear h' Hh | discriminate].
  destruct h.
  - (* random search *)
    unfold better, c, candidate; clear better c.
    set (c := sample uniform (S (rng w)) (ranges (self w))).
    destruct (py_gt (f c) (currentY b)) eqn:Hgt.
    + eexists. eexists. split.
      { unfold optimize_body. eapply bind_ok; [exact Hsel |].
        eapply bind_ok; [apply generateRandomHypothesis_ok |].
        eapply bind_ok; [apply call_ok; simpl; apply lookup_new |].
        simpl rng; simpl self. fold c. rewrite Hgt.
        eapply bind_ok; reflexivity. }
      unfold hypothesis_of, best_valid. simpl.
      rewrite lookup_new, length_app. simpl.
      repeat apply conj; auto; try lia.
      intros l Hl. apply lookup_old. assumption.
    + eexists. eexists. split.
      { unfold optimize_body. eapply bind_ok; [exact Hsel |].
        eapply bind_ok; [apply generateRandomHypothesis_ok |].
        eapply bind_ok; [apply call_ok; simpl; apply lookup_new |].
        simpl rng; simpl self. fold c. rewrite Hgt.
        eapply bind_ok; reflexivity. }
      unfold hypothesis_of, best_valid in *. simpl.
      destruct (currentX b) as [p|]; simpl.
      * rewrite lookup_old, length_app by assumption. simpl.
        repeat apply conj; auto; try lia.
        intros l Hl. apply lookup_old. assumption.
      * repeat apply conj; auto.
        intros l Hl. apply lookup_old. assumption.
  - (* gradient step *)
    unfold better, c, candidate, candidate_evaluations; clear better c.
    unfold base_point, hypothesis_of, best_valid in *.
    destruct (currentX b) as [p|] eqn:HcurX.
    + destruct (lookup_lt_is_Some_2 _ _ Hvalid) as [x Hx]. rewrite Hx.
      destruct (exploit_ok b p x (set_rng (S (rng w)) w) Hx)
        as (q & w' & Hrun & Hq & Hfr & Hs & Hr & He).
      eexists. exists w'. split.
      { unfold optimize_body. eapply bind_ok; [exact Hsel |].
        rewrite HcurX. eapply bind_ok; [reflexivity |]. exact Hrun. }
      simpl in Hfr, Hs, He.
      destruct (py_gt _ _); simpl; rewrite ?Hq, ?Hfr by assumption;
        repeat apply conj; auto.
      * eapply lookup_live, Hq.
      * rewrite <- (Hfr p Hvalid) in Hx. eapply lookup_live, Hx.
    + set (x := midpoint (self w)).
      set (w2 := set_heap (heap w ++ [x]) (set_rng (S (rng w)) w)).
      assert (Hx : heap w2 !! length (heap w) = Some x) by (simpl; apply lookup_new).
      destruct (exploit_ok b (length (heap w)) x w2 Hx)
        as (q & w' & Hrun & Hq & Hfr & Hs & Hr & He).
      eexists. exists w'. split.
      { unfold optimize_body. eapply bind_ok; [exact Hsel |].
        rewrite HcurX. eapply bind_ok.
        { eapply bind_ok; reflexivity. }
        exact Hrun. }
      simpl in Hfr, Hs, He.
      assert (Hfr' : forall l, (l < length (heap w))%nat -> heap w' !! l = heap w !! l).
      { intros l Hl. rewrite Hfr by (rewrite length_app; simpl; lia).
        apply lookup_old. assumption. }
      assert (Hseed : heap w' !! length (heap w) = Some x).
      { rewrite Hfr by (rewrite length_app; simpl; lia). apply lookup_new. }
      destruct (py_gt _ _); simpl; rewrite ?Hq, ?Hseed;
        repeat apply conj; auto.
      * eapply lookup_live, Hq.
      * eapply lookup_live, Hseed.
Qed.

End Iteration.

(** * Comparisons of floats *)

Lemma py_gt_not_nan x y : py_gt x y = true -> is_nan x = false /\ is_nan y = false.
Proof.
  unfold py_gt, SFltb, SFcompare.
  destruct y, x; simpl; intros H; try discriminate; auto.
Qed.

Lemma py_gt_le x y : py_gt x y = true -> py_le y x = true.
Proof.
  unfold py_gt, py_le, SFltb, SFleb.
  destruct (SFcompare y x) as [[ | | ]|]; intros H; try discriminate; reflexivity.
Qed.

Lemma py_le_refl x : is_nan x = false -> py_le x x = true.
Proof.
  unfold py_le, SFleb, SFcompare.
  destruct x as [s|s| |s m e]; simpl; intros H; try discriminate; try reflexivity.
  - destruct s; reflexivity.
  - destruct s; rewrite Z.compare_refl, Pos.compare_cont_refl; reflexivity.
Qed.

Lemma py_gt_nan_l y : py_gt nan y = false.
Proof. unfold py_gt, SFltb, SFcompare. destruct y; reflexivity. Qed.

Lemma py_gt_neg_inf_l y : py_gt neg_inf y = false.
Proof.
  unfold py_gt, SFltb, SFcompare, neg_inf.
  destruct y as [s|s| |s m e]; try reflexivity; destruct s; reflexivity.
Qed.

Lemma py_gt_pos_inf_l y :
  is_nan y = false -> y <> pos_inf -> py_gt pos_inf y = true.
Proof.
  unfold py_gt, SFltb, SFcompare, pos_inf.
  destruct y as [s|s| |s m e]; simpl; intros Hn Hy; try discriminate; try reflexivity.
  destruct s; [reflexivity | contradiction].
Qed.

(** * Runs of [optimize] *)

Section Runs.

Variable uniform : nat -> float -> float -> float.
Variable f : list float -> float.

Lemma optimize_loop_snoc k : forall b w,
  optimize_loop uniform f (S k) b w =
    (b' <- optimize_loop uniform f k b ;; optimize_body uniform f b') w.
Proof.
  induction k as [|k IH]; intros b w.
  - simpl. unfold bind, ret. destruct (optimize_body uniform f b w) as [[b'|e] w']; reflexivity.
  - change (optimize_loop uniform f (S (S k)) b w)
      with (bind (optimize_body uniform f b) (optimize_loop uniform f (S k)) w).
    change (optimize_loop uniform f (S k) b)
      with (bind (optimize_body uniform f b) (optimize_loop uniform f k)).
    unfold bind.
    destruct (optimize_body uniform f b w) as [[b1|e] w1]; [| reflexivity].
    rewrite IH. reflexivity.
Qed.

Lemma optimize_body_selected b w b' w' :
  optimize_body uniform f b w = (Ok b', w') ->
  exists h w1, selectLeftOrRight uniform w = (Ok h, w1).
Proof.
  intros H. unfold optimize_body in H.
  apply bind_inv in H as [(h & w1 & Hsel & _) | (e & _ & He)]; [eauto | discriminate].
Qed.

Lemma initial_inv w : run_inv initial_best w.
Proof. split; [exact I | reflexivity]. Qed.

(** One completed iteration: the invariant, the score and the counters. *)
Lemma optimize_body_step b w b' w' :
  run_inv b w ->
  optimize_body uniform f b w = (Ok b', w') ->
  run_inv b' w' /\
  py_le (currentY b) (currentY b') = true /\
  (exists h, self w' = reward h (self w)).
Proof.
  intros [Hv Hn] Hrun.
  destruct (optimize_body_selected _ _ _ _ Hrun) as (h & w1 & Hsel).
  destruct (optimize_body_ok uniform f b w h w1 Hsel Hv)
    as (b2 & w2 & Hrun2 & HY & _ & Hs & _ & _ & Hv2).
  rewrite Hrun in Hrun2. inversion Hrun2; subst b2 w2. clear Hrun2.
  destruct (py_gt (f (candidate uniform f h b w)) (currentY b)) eqn:Hgt.
  - destruct (py_gt_not_nan _ _ Hgt) as [Hc _].
    repeat apply conj; eauto.
    + rewrite HY. exact Hc.
    + rewrite HY. apply py_gt_le, Hgt.
  - repeat apply conj; eauto.
    + rewrite HY. exact Hn.
    + rewrite HY. apply py_le_refl, Hn.
Qed.

Lemma reward_total h s : total_points (reward h s) = total_points s + 1.
Proof. destruct h; unfold total_points; simpl; lia. Qed.

Lemma reward_cases h s :
  (leftPoints (reward h s) = leftPoints s + 1 /\ rightPoints (reward h s) = rightPoints s) \/
  (leftPoints (reward h s) = leftPoints s /\ rightPoints (reward h s) = rightPoints s + 1).
Proof. destruct h; simpl; auto. Qed.

Lemma reward_ranges h s : ranges (reward h s) = ranges s.
Proof. destruct h; reflexivity. Qed.

(** A completed run of [n] iterations. *)
Lemma optimize_loop_run n : forall b w b' w',
  run_inv b w ->
  optimize_loop uniform f n b w = (Ok b', w') ->
  run_inv b' w' /\
  total_points (self w') = total_points (self w) + Z.of_nat n /\
  leftPoints (self w) <= leftPoints (self w') /\
  rightPoints (self w) <= rightPoints (self w') /\
  ranges (self w') = ranges (self w).
Proof.
  induction n as [|n IH]; intros b w b' w' Hinv Hrun.
  - simpl in Hrun. inversion Hrun; subst.
    split; [assumption |]. unfold total_points. simpl.
    repeat apply conj; auto; lia.
  - simpl in Hrun.
    apply bind_inv in Hrun as [(b1 & w1 & Hbody & Hrest) | (e & _ & He)];
      [| discriminate].
    destruct (optimize_body_step _ _ _ _ Hinv Hbody) as (Hinv1 & _ & h & Hs).
    destruct (IH _ _ _ _ Hinv1 Hrest) as (Hinv' & Ht & Hl & Hr & Hrg).
    repeat apply conj.
    + apply Hinv'.
    + apply Hinv'.
    + rewrite Ht, Hs, reward_total. lia.
    + rewrite Hs in Hl. destruct (reward_cases h (self w)) as [[? ?]|[? ?]]; lia.
    + rewrite Hs in Hr. destruct (reward_cases h (self w)) as [[? ?]|[? ?]]; lia.
    + rewrite Hrg, Hs. apply reward_ranges.
Qed.

(** With positive counters an iteration never raises. *)
Lemma optimize_body_total b w :
  weights_positive w -> best_valid b w ->
  exists b' w', optimize_body uniform f b w = (Ok b', w').
Proof.
  intros [Hl Hr] Hv.
  pose proof (selectLeftOrRight_pos uniform w Hl Hr) as Hsel.
  destruct (optimize_body_ok uniform f b w _ _ Hsel Hv) as (b' & w' & Hrun & _).
  eauto.
Qed.

Lemma optimize_loop_total n : forall b w,
  weights_positive w -> run_inv b w ->
  exists b' w', optimize_loop uniform f n b w = (Ok b', w').
Proof.
  induction n as [|n IH]; intros b w Hpos Hinv.
  - exists b, w. reflexivity.
  - destruct (optimize_body_total b w Hpos (proj1 Hinv)) as (b1 & w1 & Hbody).
    destruct (optimize_body_step _ _ _ _ Hinv Hbody) as (Hinv1 & _ & h & Hs).
    assert (Hpos1 : weights_positive w1).
    { destruct Hpos as [Hl Hr]. unfold weights_positive. rewrite Hs.
      destruct (reward_cases h (self w)) as [[-> ->]|[-> ->]]; lia. }
    destruct (IH b1 w1 Hpos1 Hinv1) as (b' & w' & Hrest).
    exists b', w'. simpl. eapply bind_ok; eassumption.
Qed.

End Runs.

(** * The properties *)

Section Prefixes.

Variable uniform : nat -> float -> float -> float.
Variable f : list float -> float.

Lemma optimize_loop_pred k b w b2 w2 :
  optimize_loop uniform f (S k) b w = (Ok b2, w2) ->
  exists b1 w1,
    optimize_loop uniform f k b w = (Ok b1, w1) /\
    optimize_body uniform f b1 w1 = (Ok b2, w2).
Proof.
  rewrite optimize_loop_snoc. intros H.
  apply bind_inv in H as [(b1 & w1 & Hk & Hbody) | (e & _ & He)];
    [eauto | discriminate].
Qed.

Lemma optimize_loop_prefix n : forall k b w bn wn,
  (k <= n)%nat ->
  optimize_loop uniform f n b w = (Ok bn, wn) ->
  exists bk wk, optimize_loop uniform f k b w = (Ok bk, wk).
Proof.
  induction n as [|n IH]; intros k b w bn wn Hk Hrun.
  - assert (k = 0)%nat as -> by lia. eauto.
  - destruct (decide (k = S n)) as [-> | Hne]; [eauto |].
    destruct (optimize_loop_pred _ _ _ _ _ Hrun) as (b1 & w1 & Hn & _).
    eapply IH; [| exact Hn]. lia.
Qed.

Lemma optimize_loop_reaches k w b w1 :
  optimize_loop uniform f k initial_best w = (Ok b, w1) -> run_inv b w1.
Proof.
  intros H. eapply optimize_loop_run; [apply initial_inv | exact H].
Qed.

End Prefixes.

(** C1, as amended.  In every iteration of [optimize], once a strategy [h]
    has been selected the iteration completes; its candidate [c] is the
    point of the last objective call.  When [f c] is strictly greater than
    the best score, the candidate becomes the best hypothesis, its score the
    best score, and the counter of [h] goes up by one.  Otherwise, ties
    included, the best score is unchanged and the counter of the other
    strategy goes up by one; the best hypothesis is unchanged, except that
    the gradient branch has replaced a missing best hypothesis by the
    midpoint seed. *)
Theorem iteration_credit uniform f k w b w1 h w2 :
  optimize_loop uniform f k initial_best w = (Ok b, w1) ->
  selectLeftOrRight uniform w1 = (Ok h, w2) ->
  let c := candidate uniform f h b w1 in
  exists b' w',
    optimize_body uniform f b w1 = (Ok b', w') /\
    (exists rest, evals w' = c :: rest) /\
    if py_gt (f c) (currentY b) then
      hypothesis_of b' w' = Some c /\
      currentY b' = f c /\
      points h (self w') = points h (self w1) + 1 /\
      points (other h) (self w') = points (other h) (self w1)
    else
      currentY b' = currentY b /\
      hypothesis_of b' w' =
        match h, hypothesis_of b w1 with
        | R, None => Some (midpoint (self w1))
        | _, o => o
        end /\
      points (other h) (self w') = points (other h) (self w1) + 1 /\
      points h (self w') = points h (self w1).
Proof.
  intros Hreach Hsel c.
  destruct (optimize_loop_reaches _ _ _ _ _ _ Hreach) as [Hv _].
  destruct (optimize_body_ok uniform f b w1 h w2 Hsel Hv)
    as (b' & w' & Hrun & HY & HX & Hs & He & _ & _).
  fold c in HY, HX, Hs, He.
  exists b', w'. split; [exact Hrun |]. split; [eauto |].
  destruct (py_gt (f c) (currentY b)).
  - rewrite Hs. repeat apply conj; auto; destruct h; reflexivity.
  - rewrite Hs, HX. repeat apply conj; auto; try (destruct h; reflexivity).
    destruct h; [destruct (hypothesis_of b w1); reflexivity |].
    unfold base_point. destruct (hypothesis_of b w1); reflexivity.
Qed.

Lemma iteration_credit_witness :
  optimize_loop (constant_uniform three_quarters) (const_objective zero) 0
    initial_best (fresh_world unit_interval)
  = (Ok initial_best, fresh_world unit_interval) /\
  selectLeftOrRight (constant_uniform three_quarters) (fresh_world unit_interval)
  = (Ok R, set_rng 1 (fresh_world unit_interval)) /\
  exists b' w',
    optimize_body (constant_uniform three_quarters) (const_objective zero)
      initial_best (fresh_world unit_interval) = (Ok b', w') /\
    hypothesis_of b' w' = Some [half] /\
    currentY b' = zero /\
    rightPoints (self w') = 2 /\ leftPoints (self w') = 1.
Proof.
  split; [reflexivity |]. split; [reflexivity |].
  destruct (iteration_credit (constant_uniform three_quarters) (const_objective zero)
              0 (fresh_world unit_interval) initial_best (fresh_world unit_interval)
              R (set_rng 1 (fresh_world unit_interval)) eq_refl eq_refl)
    as (b' & w' & Hrun & _ & Hc).
  exists b', w'. split; [exact Hrun |].
  vm_compute in Hc. destruct Hc as (HX & HY & Hr & Hl).
  repeat apply conj; assumption.
Defined.

(** C1 as stated fails: with the bounds [[0, 1]], an objective that is
    constantly [-inf] and a first draw of [0.75], the first iteration selects
    the gradient step, its candidate ties with the best score [-inf], and
    yet the best hypothesis changes from [None] to the midpoint [[0.5]]. *)
Lemma iteration_tie_changes_best :
  exists b' w',
    optimize_body (constant_uniform three_quarters) (const_objective neg_inf)
      initial_best (fresh_world unit_interval) = (Ok b', w') /\
    selectLeftOrRight (constant_uniform three_quarters) (fresh_world unit_interval)
      = (Ok R, set_rng 1 (fresh_world unit_interval)) /\
    py_gt (const_objective neg_inf
             (candidate (constant_uniform three_quarters) (const_objective neg_inf)
                R initial_best (fresh_world unit_interval)))
          (currentY initial_best) = false /\
    hypothesis_of initial_best (fresh_world unit_interval) = None /\
    hypothesis_of b' w' = Some [half] /\
    hypothesis_of b' w' <> hypothesis_of initial_best (fresh_world unit_interval).
Proof.
  eexists. eexists. split; [vm_compute; reflexivity |].
  repeat apply conj; try (vm_compute; reflexivity).
  vm_compute. discriminate.
Qed.

(** C2.  With both counters positive, [selectLeftOrRight] does not raise.
    Exactly one value [u] is drawn, by [r.uniform(0, 1)], and nothing else
    in the world changes.  The result is ["L"] exactly when [u < p] and
    ["R"] otherwise, where [p] is [leftPoints / (leftPoints + rightPoints)]:
    the binary64 quotient of the integer [leftPoints] by the integer
    [leftPoints + rightPoints], written below with the division of the
    Standard Library. *)
Theorem selectLeftOrRight_by_ratio uniform w :
  0 < leftPoints (self w) -> 0 < rightPoints (self w) ->
  let u := uniform (rng w) zero one in
  let p :=
    SFdiv 53 1024
      (S754_finite false (Z.to_pos (leftPoints (self w))) 0)
      (S754_finite false (Z.to_pos (leftPoints (self w) + rightPoints (self w))) 0) in
  p = probLeft (self w) /\
  selectLeftOrRight uniform w =
    (Ok (if py_lt u p then L else R), set_rng (S (rng w)) w) /\
  (selectLeftOrRight uniform w = (Ok L, set_rng (S (rng w)) w) <-> py_lt u p = true) /\
  (selectLeftOrRight uniform w = (Ok R, set_rng (S (rng w)) w) <-> py_lt u p = false).
Proof.
  intros Hl Hr u p.
  assert (Hp : p = probLeft (self w)).
  { unfold p, probLeft, fdiv, prec, emax.
    destruct (leftPoints (self w)) as [|a|a] eqn:Ha; try lia.
    destruct (Z.pos a + rightPoints (self w)) as [|c|c] eqn:Hc; try lia.
    reflexivity. }
  split; [exact Hp |].
  pose proof (selectLeftOrRight_pos uniform w Hl Hr) as Hsel. fold u in Hsel.
  rewrite <- Hp in Hsel. rewrite Hsel. split; [reflexivity |].
  destruct (py_lt u p); split; split; intros H;
    try reflexivity; try discriminate.
Qed.

Lemma selectLeftOrRight_by_ratio_witness :
  selectLeftOrRight (constant_uniform six_tenths)
    (fresh_world (mkTwoHanded [(zero, one)] 9 1))
    = (Ok L, set_rng 1 (fresh_world (mkTwoHanded [(zero, one)] 9 1))) /\
  selectLeftOrRight (constant_uniform six_tenths)
    (fresh_world (mkTwoHanded [(zero, one)] 1 9))
    = (Ok R, set_rng 1 (fresh_world (mkTwoHanded [(zero, one)] 1 9))).
Proof.
  destruct (selectLeftOrRight_by_ratio (constant_uniform six_tenths)
              (fresh_world (mkTwoHanded [(zero, one)] 9 1)))
    as (_ & _ & HL & _); [reflexivity | reflexivity |].
  destruct (selectLeftOrRight_by_ratio (constant_uniform six_tenths)
              (fresh_world (mkTwoHanded [(zero, one)] 1 9)))
    as (_ & _ & _ & HR); [reflexivity | reflexivity |].
  split; [apply HL | apply HR]; vm_compute; reflexivity.
Defined.

(** C3.  In a run of [optimize], every completed iteration increments
    exactly one of the two counters by exactly one; after [n] completed
    iterations the sum of the counters is the initial sum plus [n], and
    neither counter is below its initial value.  With positive initial
    counters every iteration completes. *)
Theorem weights_sum_after_n uniform f w :
  (forall k b w1 b' w',
     optimize_loop uniform f k initial_best w = (Ok b, w1) ->
     optimize_body uniform f b w1 = (Ok b', w') ->
     (leftPoints (self w') = leftPoints (self w1) + 1 /\
      rightPoints (self w') = rightPoints (self w1)) \/
     (leftPoints (self w') = leftPoints (self w1) /\
      rightPoints (self w') = rightPoints (self w1) + 1)) /\
  (forall n b w',
     optimize_loop uniform f n initial_best w = (Ok b, w') ->
     leftPoints (self w') + rightPoints (self w') =
       leftPoints (self w) + rightPoints (self w) + Z.of_nat n /\
     leftPoints (self w) <= leftPoints (self w') /\
     rightPoints (self w) <= rightPoints (self w')) /\
  (0 < leftPoints (self w) -> 0 < rightPoints (self w) ->
   forall n, exists b w', optimize_loop uniform f n initial_best w = (Ok b, w')).
Proof.
  repeat apply conj.
  - intros k b w1 b' w' Hreach Hbody.
    pose proof (optimize_loop_reaches _ _ _ _ _ _ Hreach) as Hinv.
    destruct (optimize_body_step _ _ _ _ _ _ Hinv Hbody) as (_ & _ & h & Hs).
    rewrite Hs. apply reward_cases.
  - intros n b w' Hrun.
    destruct (optimize_loop_run uniform f n _ _ _ _ (initial_inv w) Hrun)
      as (_ & Ht & Hl & Hr & _).
    unfold total_points in Ht. auto.
  - intros Hl Hr n.
    apply optimize_loop_total; [split; assumption | apply initial_inv].
Qed.

Lemma weights_sum_after_n_witness :
  exists b w',
    optimize_loop (constant_uniform six_tenths) (const_objective zero) 5
      initial_best (fresh_world unit_interval) = (Ok b, w') /\
    leftPoints (self w') + rightPoints (self w') = 1 + 1 + 5.
Proof.
  destruct (weights_sum_after_n (constant_uniform six_tenths) (const_objective zero)
              (fresh_world unit_interval)) as (_ & Hsum & Htotal).
  destruct (Htotal ltac:(reflexivity) ltac:(reflexivity) 5%nat) as (b & w' & Hrun).
  exists b, w'. split; [exact Hrun |].
  destruct (Hsum 5%nat b w' Hrun) as (Hs & _). exact Hs.
Defined.

(** C4.  For every objective [f], every list [x] and every learning rate,
    a gradient step with a non-zero step size [dx] returns a list [x'] of
    the same length with
    [x'_i = x_i + learnRate * ((f (x with x_i + dx at i) - f x) / dx)] for
    every coordinate [i], all operations being those of binary64 floats:
    forward differences, and nothing clamps [x'] to the bounds.  The
    default step size, [10 ** (-10)], is not zero. *)
Theorem gradientStep_forward_difference f p dx learnRate x w :
  heap w !! p = Some x ->
  is_zero dx = false ->
  (exists q x' w',
     gradientStep f p dx learnRate w = (Ok q, w') /\
     heap w' !! q = Some x' /\
     length x' = length x /\
     forall i x_i, x !! i = Some x_i ->
       x' !! i =
         Some (fadd x_i
                 (fmul learnRate
                    (fdiv (fsub (f (<[i := fadd x_i dx]> x)) (f x)) dx)))) /\
  is_zero default_dx = false.
Proof.
  intros Hp Hdx. split; [| reflexivity].
  destruct (gradientStep_ok f p dx learnRate x w Hp (or_introl Hdx))
    as (q & w' & Hrun & _ & Hq & _).
  exists q, (ascended f x dx learnRate), w'.
  split; [exact Hrun |]. split; [exact Hq |].
  unfold ascended. split; [apply length_imap |].
  intros i x_i Hi. rewrite list_lookup_imap, Hi. simpl.
  unfold forward_difference. rewrite (perturb_lookup _ _ _ _ Hi). reflexivity.
Qed.

Lemma gradientStep_forward_difference_witness :
  exists q w',
    gradientStep (fold_right fadd zero) 0 one one (world_with [one; two]) = (Ok q, w') /\
    heap w' !! q = Some [two; fadd two one].
Proof.
  destruct (gradientStep_forward_difference (fold_right fadd zero) 0 one one
              [one; two] (world_with [one; two]) eq_refl eq_refl) as (Hok & _).
  destruct Hok as (q & x' & w' & Hrun & Hq & Hlen & Hval).
  exists q, w'. split; [exact Hrun |].
  rewrite Hq. f_equal.
  pose proof (Hval 0%nat one eq_refl) as H0.
  pose proof (Hval 1%nat two eq_refl) as H1.
  destruct x' as [|a [|b [|c x']]]; try (simpl in Hlen; discriminate Hlen).
  simpl in H0, H1. apply (inj Some) in H0. apply (inj Some) in H1. subst a b.
  vm_compute. reflexivity.
Defined.

(** C5, as amended.  A gradient step that completes on a point of [d]
    coordinates calls the objective exactly [2 * d] times: for each
    coordinate, once on a copy of the point and once on the copy with that
    coordinate perturbed.  The value at the unperturbed point is not
    shared between coordinates. *)
Theorem gradientStep_evaluation_count f p dx learnRate x w :
  heap w !! p = Some x ->
  is_zero dx = false ->
  exists q w',
    gradientStep f p dx learnRate w = (Ok q, w') /\
    evals w' =
      rev (flat_map (fun i => [x; perturb x i dx]) (range (length x))) ++ evals w /\
    length (evals w') = (length (evals w) + 2 * length x)%nat.
Proof.
  intros Hp Hdx.
  destruct (gradientStep_ok f p dx learnRate x w Hp (or_introl Hdx))
    as (q & w' & Hrun & _ & _ & _ & _ & _ & He).
  exists q, w'. split; [exact Hrun |]. split; [exact He |].
  rewrite He, length_app, length_rev, gradient_evaluations_length. lia.
Qed.

Lemma gradientStep_evaluation_count_witness :
  exists q w',
    gradientStep (fold_right fadd zero) 0 default_dx default_learnRate
      (world_with [one; two; zero]) = (Ok q, w') /\
    length (evals w') = 6%nat.
Proof.
  destruct (gradientStep_evaluation_count (fold_right fadd zero) 0 default_dx
              default_learnRate [one; two; zero] (world_with [one; two; zero])
              eq_refl eq_refl) as (q & w' & Hrun & _ & Hlen).
  exists q, w'. split; [exact Hrun | exact Hlen].
Defined.

(** C5 as stated fails: on a point of two coordinates the objective is
    called four times, not three; on the empty point it is not called. *)
Lemma gradientStep_four_evaluations :
  length (evals (snd (gradientStep (const_objective zero) 0 default_dx
                        default_learnRate (world_with [one; two])))) = 4%nat /\
  (4 <> length [one; two] + 1)%nat /\
  length (evals (snd (gradientStep (const_objective zero) 0 default_dx
                        default_learnRate (world_with [])))) = 0%nat.
Proof. repeat apply conj; [vm_compute; reflexivity | simpl; lia | vm_compute; reflexivity]. Qed.

(** C10.  Whatever the objective, the step size, the learning rate and the
    outcome of the call, [gradientStep] leaves its input list as it was,
    as it does every list object that existed before the call; a returned
    list is a new object, distinct from the input. *)
Theorem gradientStep_leaves_input f p dx learnRate x w r w' :
  heap w !! p = Some x ->
  gradientStep f p dx learnRate w = (r, w') ->
  heap w' !! p = Some x /\
  (forall l y, heap w !! l = Some y -> heap w' !! l = Some y) /\
  (forall q, r = Ok q -> q <> p /\ heap w !! q = None).
Proof.
  intros Hp Hrun.
  destruct (gradientStep_frame f p dx learnRate x w r w' Hp Hrun) as [Hfr Hnew].
  split; [| split].
  - rewrite Hfr; [exact Hp | eapply lookup_live, Hp].
  - intros l y Hl. rewrite Hfr; [exact Hl | eapply lookup_live, Hl].
  - intros q Hr. apply Hnew in Hr. apply lookup_live in Hp.
    split; [lia | apply lookup_ge_None; exact Hr].
Qed.

Lemma gradientStep_leaves_input_witness :
  heap (snd (gradientStep (fold_right fadd zero) 0 one one (world_with [one; two])))
    !! 0%nat = Some [one; two] /\
  heap (snd (gradientStep (fold_right fadd zero) 0 zero one (world_with [one; two])))
    !! 0%nat = Some [one; two].
Proof.
  split.
  - exact (proj1 (gradientStep_leaves_input (fold_right fadd zero) 0 one one
                    [one; two] (world_with [one; two]) _ _ eq_refl
                    (surjective_pairing _))).
  - exact (proj1 (gradientStep_leaves_input (fold_right fadd zero) 0 zero one
                    [one; two] (world_with [one; two]) _ _ eq_refl
                    (surjective_pairing _))).
Defined.

(** C6, as amended.  The comparison of [optimize] is the plain [>] of
    floats.  In every iteration the best score is not a NaN, before and
    after.  A candidate whose score is a NaN or [-inf] is never an
    improvement: the best score stays, and the other strategy is credited.
    A candidate whose score is [+inf] is an improvement whenever the best
    score is not [+inf] already: it becomes the best hypothesis and [+inf]
    the best score. *)
Theorem nonfinite_scores uniform f k w b w1 h w2 :
  optimize_loop uniform f k initial_best w = (Ok b, w1) ->
  selectLeftOrRight uniform w1 = (Ok h, w2) ->
  let c := candidate uniform f h b w1 in
  is_nan (currentY b) = false /\
  exists b' w',
    optimize_body uniform f b w1 = (Ok b', w') /\
    is_nan (currentY b') = false /\
    (is_nan (f c) = true \/ f c = neg_inf ->
     py_gt (f c) (currentY b) = false /\
     currentY b' = currentY b /\
     self w' = reward (other h) (self w1)) /\
    (f c = pos_inf -> currentY b <> pos_inf ->
     py_gt (f c) (currentY b) = true /\
     currentY b' = pos_inf /\
     hypothesis_of b' w' = Some c /\
     self w' = reward h (self w1)).
Proof.
  intros Hreach Hsel c.
  destruct (optimize_loop_reaches _ _ _ _ _ _ Hreach) as [Hv Hn].
  split; [exact Hn |].
  destruct (optimize_body_ok uniform f b w1 h w2 Hsel Hv)
    as (b' & w' & Hrun & HY & HX & Hs & _ & _ & Hv').
  fold c in HY, HX, Hs.
  exists b', w'. split; [exact Hrun |].
  destruct (optimize_body_step uniform f b w1 b' w' (conj Hv Hn) Hrun)
    as ((_ & Hn') & _ & _).
  split; [exact Hn' |]. split.
  - intros Hbad.
    assert (Hgt : py_gt (f c) (currentY b) = false).
    { destruct Hbad as [Hnan | Hinf].
      - destruct (f c); try discriminate. apply py_gt_nan_l.
      - rewrite Hinf. apply py_gt_neg_inf_l. }
    rewrite Hgt in HY, Hs. auto.
  - intros Hinf Hne.
    assert (Hgt : py_gt (f c) (currentY b) = true).
    { rewrite Hinf. apply py_gt_pos_inf_l; assumption. }
    rewrite Hgt in HY, HX, Hs. rewrite <- Hinf. auto.
Qed.

Lemma nonfinite_scores_witness :
  exists b' w',
    optimize_body (constant_uniform quarter) (const_objective nan) initial_best
      (fresh_world unit_interval) = (Ok b', w') /\
    currentY b' = neg_inf /\
    self w' = mkTwoHanded [(zero, one)] 1 2.
Proof.
  destruct (nonfinite_scores (constant_uniform quarter) (const_objective nan) 0
              (fresh_world unit_interval) initial_best (fresh_world unit_interval)
              L (set_rng 1 (fresh_world unit_interval)) eq_refl eq_refl)
    as (_ & b' & w' & Hrun & _ & Hbad & _).
  exists b', w'. split; [exact Hrun |].
  destruct (Hbad (or_introl eq_refl)) as (_ & HY & Hs).
  split; [exact HY | exact Hs].
Defined.

(** C6 as stated fails: with an objective that is constantly [+inf], the
    first iteration adopts its candidate and sets the best score to
    [+inf], which is not finite. *)
Lemma infinite_score_adopted :
  exists b' w',
    optimize_body (constant_uniform quarter) (const_objective pos_inf) initial_best
      (fresh_world unit_interval) = (Ok b', w') /\
    currentY b' = pos_inf /\
    is_finite (currentY b') = false /\
    hypothesis_of b' w' = Some [quarter] /\
    evals w' = [[quarter]].
Proof.
  eexists. eexists. split; [vm_compute; reflexivity |].
  repeat apply conj; vm_compute; reflexivity.
Qed.

(** C7, as amended.  [__init__] validates nothing: for every bounds
    sequence and every pair of initial counters the construction succeeds
    and stores its arguments as they are.  No error is raised for an empty
    bounds sequence or for a dimension whose lower bound exceeds the
    upper one. *)
Theorem init_never_fails (bounds : list (float * float)) (l r : Z) :
  __init__ bounds l r = Ok (mkTwoHanded bounds l r) /\
  forall e, __init__ bounds l r <> Raise e.
Proof. split; [reflexivity | intros e; discriminate]. Qed.

(** C7 as stated fails: the construction succeeds on the empty bounds
    sequence and on the bounds [[1, 0]]. *)
Lemma init_accepts_invalid_bounds :
  __init__ [] 1 1 = Ok (mkTwoHanded [] 1 1) /\
  __init__ [] 1 1 <> Raise InvalidSearchSpace /\
  py_gt one zero = true /\
  __init__ [(one, zero)] 1 1 = Ok (mkTwoHanded [(one, zero)] 1 1) /\
  __init__ [(one, zero)] 1 1 <> Raise InvalidSearchSpace.
Proof. repeat apply conj; try reflexivity; discriminate. Qed.

(** C8.  In a run of [optimize] that completes [n] iterations, for every
    [k] below [n] the best score after iteration [k + 1] is greater than
    or equal to the best score after iteration [k]. *)
Theorem bestScore_monotone uniform f n w bn wn :
  optimize_loop uniform f n initial_best w = (Ok bn, wn) ->
  forall k, (k < n)%nat ->
    exists b1 w1 b2 w2,
      optimize_loop uniform f k initial_best w = (Ok b1, w1) /\
      optimize_loop uniform f (S k) initial_best w = (Ok b2, w2) /\
      py_le (currentY b1) (currentY b2) = true.
Proof.
  intros Hrun k Hk.
  destruct (optimize_loop_prefix uniform f n (S k) _ _ _ _ Hk Hrun) as (b2 & w2 & H2).
  destruct (optimize_loop_pred uniform f k _ _ _ _ H2) as (b1 & w1 & H1 & Hbody).
  exists b1, w1, b2, w2. split; [exact H1 |]. split; [exact H2 |].
  pose proof (optimize_loop_reaches _ _ _ _ _ _ H1) as Hinv.
  destruct (optimize_body_step _ _ _ _ _ _ Hinv Hbody) as (_ & Hle & _).
  exact Hle.
Qed.

Lemma bestScore_monotone_witness :
  exists b1 w1 b2 w2,
    optimize_loop (constant_uniform quarter) (fold_right fadd zero) 2 initial_best
      (fresh_world unit_interval) = (Ok b1, w1) /\
    optimize_loop (constant_uniform quarter) (fold_right fadd zero) 3 initial_best
      (fresh_world unit_interval) = (Ok b2, w2) /\
    py_le (currentY b1) (currentY b2) = true.
Proof.
  eapply (bestScore_monotone (constant_uniform quarter) (fold_right fadd zero) 4
            (fresh_world unit_interval) _ _ (surjective_pairing _) 2%nat).
  lia.
Defined.

(** C9, as amended.  The locals [currentX] and [currentY] are created at
    the start of each call of [optimize], as [None] and [-inf], and
    discarded when it returns.  The counters are attributes of the
    instance and persist: when a call of [n1] iterations returns, the sum
    of the counters has grown by [n1] and neither has gone down, and the
    next call on the same instance starts from these counters, so that
    after [n2] more iterations the sum has grown by [n1 + n2]. *)
Theorem weights_persist_across_calls uniform f1 n1 f2 n2 w r1 w1 :
  optimize uniform f1 n1 w = (Ok r1, w1) ->
  leftPoints (self w1) + rightPoints (self w1) =
    leftPoints (self w) + rightPoints (self w) + Z.of_nat n1 /\
  leftPoints (self w) <= leftPoints (self w1) /\
  rightPoints (self w) <= rightPoints (self w1) /\
  ((0 < n1)%nat ->
   (leftPoints (self w1), rightPoints (self w1)) <>
   (leftPoints (self w), rightPoints (self w))) /\
  optimize uniform f2 n2 w1 =
    (b <- optimize_loop uniform f2 n2 (mkBest None neg_inf) ;; ret (currentX b)) w1 /\
  forall r2 w2,
    optimize uniform f2 n2 w1 = (Ok r2, w2) ->
    leftPoints (self w2) + rightPoints (self w2) =
      leftPoints (self w) + rightPoints (self w) + Z.of_nat n1 + Z.of_nat n2.
Proof.
  intros Hcall.
  assert (Hsum : forall g n v r v',
             optimize uniform g n v = (Ok r, v') ->
             total_points (self v') = total_points (self v) + Z.of_nat n /\
             leftPoints (self v) <= leftPoints (self v') /\
             rightPoints (self v) <= rightPoints (self v')).
  { intros g n v r v' H. unfold optimize in H.
    apply bind_inv in H as [(b & v1 & Hloop & Hret) | (e & _ & He)]; [| discriminate].
    inversion Hret; subst.
    destruct (optimize_loop_run uniform g n _ _ _ _ (initial_inv v) Hloop)
      as (_ & Ht & Hl & Hr & _).
    auto. }
  destruct (Hsum _ _ _ _ _ Hcall) as (Ht & Hl & Hr).
  unfold total_points in Ht.
  repeat apply conj; try assumption.
  - intros Hn Heq. inversion Heq. lia.
  - reflexivity.
  - intros r2 w2 Hcall2.
    destruct (Hsum _ _ _ _ _ Hcall2) as (Ht2 & _ & _).
    unfold total_points in Ht2. lia.
Qed.

Lemma weights_persist_across_calls_witness :
  exists r1 w1,
    optimize (constant_uniform six_tenths) (const_objective neg_inf) 1
      (fresh_world unit_interval) = (Ok r1, w1) /\
    leftPoints (self w1) + rightPoints (self w1) = 1 + 1 + 1 /\
    forall r2 w2,
      optimize (constant_uniform six_tenths) (const_objective zero) 2 w1 = (Ok r2, w2) ->
      leftPoints (self w2) + rightPoints (self w2) = 1 + 1 + 1 + 2.
Proof.
  eexists. eexists. split; [vm_compute; reflexivity |].
  destruct (weights_persist_across_calls (constant_uniform six_tenths)
              (const_objective neg_inf) 1 (const_objective zero) 2
              (fresh_world unit_interval) _ _ (surjective_pairing _))
    as (Hs & _ & _ & _ & _ & Hnext).
  split; [exact Hs | exact Hnext].
Defined.

(** C9 as stated fails: after one call of one iteration on an instance
    constructed with the counters [1] and [1], the instance holds the
    counters [2] and [1]; with a draw of [0.6] the first selection of the
    first call is ["R"], that of a second call on the same instance is
    ["L"]. *)
Lemma second_call_sees_accumulated_weights :
  exists r1 w1,
    optimize (constant_uniform six_tenths) (const_objective neg_inf) 1
      (fresh_world unit_interval) = (Ok r1, w1) /\
    (leftPoints (self (fresh_world unit_interval)),
     rightPoints (self (fresh_world unit_interval))) = (1, 1) /\
    (leftPoints (self w1), rightPoints (self w1)) = (2, 1) /\
    fst (selectLeftOrRight (constant_uniform six_tenths) (fresh_world unit_interval))
      = Ok R /\
    fst (selectLeftOrRight (constant_uniform six_tenths) w1) = Ok L.
Proof.
  eexists. eexists. split; [vm_compute; reflexivity |].
  repeat apply conj; vm_compute; reflexivity.
Qed.

(** * The order of floats as an order of keys *)

Lemma SFcompare_key x y :
  is_nan x = false -> is_nan y = false ->
  exists c, SFcompare x y = Some c /\
    match c with
    | Lt => lex_lt (float_key x) (float_key y)
    | Eq => float_key x = float_key y
    | Gt => lex_lt (float_key y) (float_key x)
    end.
Proof.
  intros Hx Hy.
  destruct x as [sx|sx| |sx mx ex]; try discriminate;
  destruct y as [sy|sy| |sy my ey]; try discriminate;
  unfold SFcompare, lex_lt, float_key;
  try (destruct sx); try (destruct sy); simpl;
  try (eexists; split; [reflexivity |]; simpl; first [reflexivity | lia]).
  - rewrite Pos.compare_cont_spec. simpl.
    destruct (Z.compare_spec ex ey); destruct (Pos.compare_spec mx my); simpl;
      eexists; (split; [reflexivity |]); simpl;
      first [subst; reflexivity | lia].
  - rewrite Pos.compare_cont_spec. simpl.
    destruct (Z.compare_spec ex ey); destruct (Pos.compare_spec mx my); simpl;
      eexists; (split; [reflexivity |]); simpl;
      first [subst; reflexivity | lia].
Qed.

Lemma lex_lt_irrefl a : ~ lex_lt a a.
Proof. unfold lex_lt. lia. Qed.

Lemma lex_lt_asym a b : lex_lt a b -> ~ lex_lt b a.
Proof. unfold lex_lt. lia. Qed.

Lemma lex_lt_le_trans a b c : lex_lt a b -> lex_le b c -> lex_lt a c.
Proof. unfold lex_le, lex_lt. intros H [H' | <-]; [lia | exact H]. Qed.

Lemma lex_le_trans a b c : lex_le a b -> lex_le b c -> lex_le a c.
Proof.
  unfold lex_le. intros [H | <-] H'; [| exact H'].
  left. eapply lex_lt_le_trans; [exact H | exact H'].
Qed.

Lemma py_le_key x y :
  is_nan x = false -> is_nan y = false ->
  (py_le x y = true <-> lex_le (float_key x) (float_key y)).
Proof.
  intros Hx Hy. unfold py_le, SFleb.
  destruct (SFcompare_key x y Hx Hy) as (c & -> & Hc).
  destruct c; unfold lex_le; split; intros H; auto; try discriminate.
  destruct H as [H | H].
  - exfalso. exact (lex_lt_asym _ _ H Hc).
  - exfalso. rewrite H in Hc. exact (lex_lt_irrefl _ Hc).
Qed.

Lemma py_gt_key x y :
  is_nan x = false -> is_nan y = false ->
  (py_gt x y = true <-> lex_lt (float_key y) (float_key x)).
Proof.
  intros Hx Hy. unfold py_gt, SFltb.
  destruct (SFcompare_key y x Hy Hx) as (c & -> & Hc).
  destruct c; split; intros H; auto; try discriminate; exfalso.
  - rewrite Hc in H. exact (lex_lt_irrefl _ H).
  - exact (lex_lt_asym _ _ H Hc).
Qed.

Lemma py_le_trans x y z :
  py_le x y = true -> py_le y z = true -> py_le x z = true.
Proof.
  intros Hxy Hyz.
  assert (Hn : forall a b, py_le a b = true -> is_nan a = false /\ is_nan b = false).
  { intros a b. unfold py_le, SFleb, SFcompare.
    destruct a, b; simpl; intros H; try discriminate; auto. }
  destruct (Hn _ _ Hxy) as [Hx Hy]. destruct (Hn _ _ Hyz) as [_ Hz].
  apply py_le_key; [assumption | assumption |].
  eapply lex_le_trans;
    [apply (proj1 (py_le_key x y Hx Hy) Hxy) | apply (proj1 (py_le_key y z Hy Hz) Hyz)].
Qed.

(** A score that does not beat [y] does not beat anything above [y]. *)
Lemma py_gt_false_le c y z :
  py_gt c y = false -> py_le y z = true -> py_gt c z = false.
Proof.
  intros Hcy Hyz.
  assert (Hn : is_nan y = false /\ is_nan z = false).
  { revert Hyz. unfold py_le, SFleb, SFcompare.
    destruct y, z; simpl; intros H; try discriminate; auto. }
  destruct Hn as [Hy Hz].
  destruct (is_nan c) eqn:Hc.
  { destruct c; try discriminate. apply py_gt_nan_l. }
  destruct (py_gt c z) eqn:Hcz; [exfalso | reflexivity].
  apply py_gt_key in Hcz; [| assumption | assumption].
  apply py_le_key in Hyz; [| assumption | assumption].
  assert (Hlt : lex_lt (float_key y) (float_key c)).
  { destruct Hyz as [H | H]; [| rewrite H; exact Hcz].
    unfold lex_lt in *. lia. }
  apply py_gt_key in Hlt; [| assumption | assumption].
  rewrite Hlt in Hcy. discriminate.
Qed.

Lemma py_gt_irrefl x : py_gt x x = false.
Proof.
  destruct (is_nan x) eqn:Hx.
  - destruct x; try discriminate. apply py_gt_nan_l.
  - destruct (py_gt x x) eqn:H; [| reflexivity].
    apply py_gt_key in H; [| assumption | assumption].
    exfalso. exact (lex_lt_irrefl _ H).
Qed.

(** * More on one iteration *)

Section IterationTrace.

Variable uniform : nat -> float -> float -> float.
Variable f : list float -> float.

Lemma exploit_trace b cur x w :
  heap w !! cur = Some x ->
  exists q w',
    (newX <- gradientStep f cur default_dx default_learnRate ;;
     newY <- call f newX ;;
     if py_gt newY (currentY b) then
       incr_rightPoints ;; ret (mkBest (Some newX) newY)
     else
       incr_leftPoints ;; ret (mkBest (Some cur) (currentY b))) w =
      (Ok (if py_gt (f (ascended f x default_dx default_learnRate)) (currentY b)
           then mkBest (Some q) (f (ascended f x default_dx default_learnRate))
           else mkBest (Some cur) (currentY b)), w') /\
    (length (heap w) <= q)%nat /\
    (length (heap w) <= length (heap w'))%nat /\
    rng w' = rng w.
Proof.
  intros Hcur.
  destruct (gradientStep_ok f cur default_dx default_learnRate x w Hcur
              (or_introl eq_refl))
    as (q & w2 & Hrun & Hq & Hc & Hfr & Hs & Hr & He).
  assert (Hlen : (length (heap w) <= length (heap w2))%nat).
  { apply lookup_live in Hc. lia. }
  set (c := ascended f x default_dx default_learnRate) in *.
  destruct (py_gt (f c) (currentY b)) eqn:Hgt.
  - exists q. eexists. split.
    { eapply bind_ok; [exact Hrun |].
      eapply bind_ok; [apply call_ok, Hc |].
      rewrite Hgt. eapply bind_ok; reflexivity. }
    simpl. auto.
  - exists q. eexists. split.
    { eapply bind_ok; [exact Hrun |].
      eapply bind_ok; [apply call_ok, Hc |].
      rewrite Hgt. eapply bind_ok; reflexivity. }
    simpl. auto.
Qed.

(** The draws an iteration consumes and the location of its best. *)
Lemma optimize_body_trace b w h w1 b' w' :
  selectLeftOrRight uniform w = (Ok h, w1) ->
  best_valid b w ->
  optimize_body uniform f b w = (Ok b', w') ->
  rng w' = (S (rng w) + match h with
                        | L => length (ranges (self w))
                        | R => 0
                        end)%nat /\
  (currentX b' = currentX b \/
   exists q, currentX b' = Some q /\ (length (heap w) <= q)%nat) /\
  (length (heap w) <= length (heap w'))%nat.
Proof.
  intros Hsel Hvalid Hbody.
  destruct (selectLeftOrRight_inv _ _ _ _ Hsel) as [(h' & Hh & ->) | (e & He & _)];
    [clear h' Hh | discriminate].
  destruct h.
  - set (c := sample uniform (S (rng w)) (ranges (self w))).
    assert (Hrun : optimize_body uniform f b w =
              (if py_gt (f c) (currentY b)
               then (Ok (mkBest (Some (length (heap w))) (f c)),
                     mkWorld (reward L (self w)) (heap w ++ [c])
                       (S (rng w) + length (ranges (self w))) (c :: evals w))
               else (Ok b,
                     mkWorld (reward R (self w)) (heap w ++ [c])
                       (S (rng w) + length (ranges (self w))) (c :: evals w)))).
    { unfold optimize_body. eapply bind_ok; [exact Hsel |].
      eapply bind_ok; [apply generateRandomHypothesis_ok |].
      eapply bind_ok; [apply call_ok; simpl; apply lookup_new |].
      simpl rng; simpl self. fold c.
      destruct (py_gt (f c) (currentY b)); eapply bind_ok; reflexivity. }
    rewrite Hrun in Hbody.
    destruct (py_gt (f c) (currentY b)); inversion Hbody; subst; simpl;
      rewrite length_app; simpl; repeat apply conj; eauto; lia.
  - unfold best_valid in Hvalid.
    destruct (currentX b) as [p|] eqn:HcurX.
    + destruct (lookup_lt_is_Some_2 _ _ Hvalid) as [x Hx].
      destruct (exploit_trace b p x (set_rng (S (rng w)) w) Hx)
        as (q & w2 & Hrun & Hq & Hlen & Hr).
      assert (Hrun' : optimize_body uniform f b w =
                (Ok (if py_gt (f (ascended f x default_dx default_learnRate)) (currentY b)
                     then mkBest (Some q) (f (ascended f x default_dx default_learnRate))
                     else mkBest (Some p) (currentY b)), w2)).
      { unfold optimize_body. eapply bind_ok; [exact Hsel |].
        rewrite HcurX. eapply bind_ok; [reflexivity |]. exact Hrun. }
      rewrite Hrun' in Hbody. inversion Hbody; subst. simpl in *.
      rewrite Hr. repeat apply conj; [lia | | assumption].
      destruct (py_gt _ _); simpl; eauto.
    + set (x := midpoint (self w)).
      set (w2 := set_heap (heap w ++ [x]) (set_rng (S (rng w)) w)).
      assert (Hx : heap w2 !! length (heap w) = Some x) by (simpl; apply lookup_new).
      destruct (exploit_trace b (length (heap w)) x w2 Hx)
        as (q & w3 & Hrun & Hq & Hlen & Hr).
      assert (Hrun' : optimize_body uniform f b w =
                (Ok (if py_gt (f (ascended f x default_dx default_learnRate)) (currentY b)
                     then mkBest (Some q) (f (ascended f x default_dx default_learnRate))
                     else mkBest (Some (length (heap w))) (currentY b)), w3)).
      { unfold optimize_body. eapply bind_ok; [exact Hsel |].
        rewrite HcurX. eapply bind_ok.
        { eapply bind_ok; reflexivity. }
        exact Hrun. }
      rewrite Hrun' in Hbody. inversion Hbody; subst. simpl in *.
      rewrite length_app in Hq, Hlen. simpl in Hq, Hlen.
      rewrite Hr. repeat apply conj; [lia | | lia].
      right. destruct (py_gt _ _); simpl; eexists; split; eauto; lia.
Qed.

End IterationTrace.

(** * Invariants of a run *)

Lemma perturb_length x i dx : length (perturb x i dx) = length x.
Proof. unfold perturb. destruct (x !! i); [apply length_insert | reflexivity]. Qed.

Lemma ascended_length f x dx lr : length (ascended f x dx lr) = length x.
Proof. unfold ascended. apply length_imap. Qed.

Lemma midpoint_length s : length (midpoint s) = length (ranges s).
Proof. unfold midpoint. apply length_map. Qed.

Lemma gradient_evaluations_dim x dx :
  Forall (fun y => length y = length x) (gradient_evaluations x dx).
Proof.
  unfold gradient_evaluations. apply Forall_flat_map, Forall_forall.
  intros i _. repeat constructor. apply perturb_length.
Qed.

Lemma base_point_length b w :
  best_dimension b w -> length (base_point b w) = dimension w.
Proof.
  intros Hd. unfold base_point.
  destruct (hypothesis_of b w) as [x|] eqn:Hx; [apply Hd; exact Hx |].
  apply midpoint_length.
Qed.

Lemma candidate_length uniform f h b w :
  best_dimension b w -> length (candidate uniform f h b w) = dimension w.
Proof.
  intros Hd. destruct h; simpl.
  - apply sample_length.
  - rewrite ascended_length. apply base_point_length, Hd.
Qed.

Lemma candidate_evaluations_dim h b w :
  best_dimension b w ->
  Forall (fun y => length y = dimension w) (candidate_evaluations h b w).
Proof.
  intros Hd. destruct h; simpl; [constructor |].
  rewrite <- (base_point_length b w Hd). apply gradient_evaluations_dim.
Qed.

Lemma candidate_evaluations_length h b w :
  best_dimension b w ->
  S (length (candidate_evaluations h b w)) = calls_of h (dimension w).
Proof.
  intros Hd. destruct h; simpl; [reflexivity |].
  rewrite gradient_evaluations_length, (base_point_length b w Hd). reflexivity.
Qed.

Section RunFacts.

Variable uniform : nat -> float -> float -> float.
Variable f : list float -> float.

Lemma initial_strong w : strong_inv f initial_best w.
Proof.
  split; [apply initial_inv |]. split.
  - intros x Hx. discriminate.
  - left. reflexivity.
Qed.

(** Everything one completed iteration establishes. *)
Lemma optimize_body_facts b w b' w' :
  strong_inv f b w ->
  optimize_body uniform f b w = (Ok b', w') ->
  exists h w1,
    selectLeftOrRight uniform w = (Ok h, w1) /\
    strong_inv f b' w' /\
    ranges (self w') = ranges (self w) /\
    py_le (currentY b) (currentY b') = true /\
    py_gt (f (candidate uniform f h b w)) (currentY b') = false /\
    evals w' =
      candidate uniform f h b w :: rev (candidate_evaluations h b w) ++ evals w /\
    (forall l y, heap w !! l = Some y -> heap w' !! l = Some y) /\
    rng w' = (rng w + draws_of h (dimension w))%nat /\
    (currentX b' = currentX b \/
     exists q, currentX b' = Some q /\ (length (heap w) <= q)%nat) /\
    (length (heap w) <= length (heap w'))%nat.
Proof.
  intros (Hinv & Hdim & Hcons) Hbody.
  destruct (optimize_body_selected _ _ _ _ _ _ Hbody) as (h & w1 & Hsel).
  exists h, w1. split; [exact Hsel |].
  destruct (optimize_body_ok uniform f b w h w1 Hsel (proj1 Hinv))
    as (b2 & w2 & Hrun & HY & HX & Hs & He & Hfr & Hv).
  rewrite Hbody in Hrun. inversion Hrun; subst b2 w2. clear Hrun.
  destruct (optimize_body_step _ _ _ _ _ _ Hinv Hbody) as ((Hv' & Hn') & Hle & _).
  destruct (optimize_body_trace uniform f b w h w1 b' w' Hsel (proj1 Hinv) Hbody)
    as (Hr & Hloc & Hlen).
  assert (Hrg : ranges (self w') = ranges (self w)).
  { rewrite Hs. apply reward_ranges. }
  assert (Hd' : dimension w' = dimension w).
  { unfold dimension. rewrite Hrg. reflexivity. }
  set (c := candidate uniform f h b w) in *.
  assert (Hclen : length c = dimension w) by (apply candidate_length, Hdim).
  repeat apply conj; try assumption.
  - (* dimension *)
    intros x Hx. rewrite Hd'. rewrite HX in Hx.
    destruct (py_gt (f c) (currentY b)).
    + inversion Hx; subst. exact Hclen.
    + destruct h; [apply Hdim, Hx |].
      inversion Hx; subst. apply base_point_length, Hdim.
  - (* consistency *)
    unfold best_consistent. rewrite HX, HY.
    destruct (py_gt (f c) (currentY b)); [right; eauto |].
    destruct Hcons as [Hneg | (x & Hx & Hfx)]; [left; exact Hneg |].
    right. exists x. split; [| exact Hfx].
    destruct h; [exact Hx |]. unfold base_point. rewrite Hx. reflexivity.
  - (* the candidate does not beat the new best *)
    rewrite HY. destruct (py_gt (f c) (currentY b)) eqn:Hgt;
      [apply py_gt_irrefl | exact Hgt].
  - intros l y Hl. rewrite Hfr; [exact Hl | eapply lookup_live, Hl].
  - rewrite Hr. unfold draws_of, dimension. destruct h; lia.
Qed.

Lemma optimize_loop_app j : forall m b w,
  optimize_loop uniform f (j + m) b w =
    (b' <- optimize_loop uniform f j b ;; optimize_loop uniform f m b') w.
Proof.
  induction j as [|j IH]; intros m b w.
  - reflexivity.
  - change (optimize_loop uniform f (S j + m) b w)
      with (bind (optimize_body uniform f b) (optimize_loop uniform f (j + m)) w).
    change (optimize_loop uniform f (S j) b)
      with (bind (optimize_body uniform f b) (optimize_loop uniform f j)).
    unfold bind.
    destruct (optimize_body uniform f b w) as [[b1|e] w1]; [| reflexivity].
    rewrite IH. reflexivity.
Qed.

(** Everything a completed run of [n] iterations establishes. *)
Lemma optimize_loop_facts n : forall b w b' w',
  strong_inv f b w ->
  optimize_loop uniform f n b w = (Ok b', w') ->
  strong_inv f b' w' /\
  ranges (self w') = ranges (self w) /\
  py_le (currentY b) (currentY b') = true /\
  (forall l y, heap w !! l = Some y -> heap w' !! l = Some y) /\
  (currentX b' = currentX b \/
   exists q, currentX b' = Some q /\ (length (heap w) <= q)%nat) /\
  (length (heap w) <= length (heap w'))%nat /\
  exists new,
    evals w' = new ++ evals w /\
    Forall (fun y => length y = dimension w) new /\
    (n <= length new <= n * S (2 * dimension w))%nat /\
    (rng w + n <= rng w' <= rng w + n * S (dimension w))%nat /\
    (2 * (rng w' - rng w) + length new = n * (2 * dimension w + 3))%nat.
Proof.
  induction n as [|n IH]; intros b w b' w' Hinv Hrun.
  - simpl in Hrun. inversion Hrun; subst.
    split; [exact Hinv |]. split; [reflexivity |].
    split; [apply py_le_refl, (proj2 (proj1 Hinv)) |].
    split; [auto |]. split; [auto |]. split; [lia |].
    exists []. simpl. repeat apply conj; auto; lia.
  - simpl in Hrun.
    apply bind_inv in Hrun as [(b1 & w1 & Hbody & Hrest) | (e & _ & He)];
      [| discriminate].
    destruct (optimize_body_facts _ _ _ _ Hinv Hbody)
      as (h & w0 & Hsel & Hinv1 & Hrg1 & Hle1 & _ & He1 & Hfr1 & Hr1 & Hloc1 & Hlen1).
    destruct (IH _ _ _ _ Hinv1 Hrest)
      as (Hinv' & Hrg & Hle & Hfr & Hloc & Hlen & new & He & Hdim & Hcnt & Hrng & Hsum).
    assert (Hd1 : dimension w1 = dimension w).
    { unfold dimension. rewrite Hrg1. reflexivity. }
    rewrite Hd1 in *.
    destruct Hinv as (Hinv0 & Hdim0 & Hcons0).
    pose proof (candidate_evaluations_length h b w Hdim0) as Hcalls.
    split; [exact Hinv' |]. repeat apply conj.
    + rewrite Hrg. exact Hrg1.
    + eapply py_le_trans; eassumption.
    + intros l y Hl. apply Hfr, Hfr1, Hl.
    + destruct Hloc as [Heq | (q & Hq & Hge)].
      * rewrite Heq. exact Hloc1.
      * right. exists q. split; [exact Hq | lia].
    + lia.
    + exists (new ++ candidate uniform f h b w :: rev (candidate_evaluations h b w)).
      repeat apply conj.
      * rewrite He, He1, <- app_assoc. reflexivity.
      * apply Forall_app. split; [exact Hdim |].
        constructor; [apply candidate_length, Hdim0 |].
        apply Forall_rev, candidate_evaluations_dim, Hdim0.
      * rewrite length_app. simpl. rewrite length_rev.
        rewrite Hcalls. destruct h; unfold calls_of, dimension in *; lia.
      * rewrite length_app. simpl. rewrite length_rev.
        rewrite Hcalls. destruct h; unfold calls_of, dimension in *; lia.
      * rewrite Hr1 in *. destruct h; unfold draws_of, dimension in *; lia.
      * rewrite Hr1 in *. destruct h; unfold draws_of, dimension in *; lia.
      * rewrite length_app. simpl. rewrite length_rev.
        rewrite Hcalls. rewrite Hr1 in *.
        destruct h; unfold calls_of, draws_of, dimension in *; lia.
Qed.

End RunFacts.

(** * Floats on a plateau *)

Lemma fsub_diag c : is_finite c = true -> fsub c c = S754_zero false.
Proof.
  destruct c as [s|s| |s m e]; simpl; intros H; try discriminate.
  - destruct s; reflexivity.
  - unfold fsub, SFsub. rewrite Z.sub_diag. reflexivity.
Qed.

Lemma fdiv_zero_l z dx :
  is_zero z = true -> is_nan dx = false -> is_zero dx = false ->
  is_zero (fdiv z dx) = true.
Proof.
  destruct z; simpl; intros Hz; try discriminate.
  destruct dx; simpl; intros Hn Hd; try discriminate; reflexivity.
Qed.

Lemma fmul_zero_r lr z :
  is_finite lr = true -> is_zero z = true -> is_zero (fmul lr z) = true.
Proof.
  destruct z; simpl; intros Hl Hz; try discriminate.
  destruct lr; simpl in *; try discriminate; reflexivity.
Qed.

Lemma fadd_zero_r x z : is_zero z = true -> same_value (fadd x z) x.
Proof.
  destruct z as [sz| | |]; simpl; intros Hz; try discriminate.
  destruct x as [sx|sx| |sx mx ex]; unfold same_value.
  - right. destruct sx, sz; split; reflexivity.
  - left. reflexivity.
  - left. reflexivity.
  - left. reflexivity.
Qed.

Lemma fadd_zero_r_eq x z : is_zero z = true -> is_zero x = false -> fadd x z = x.
Proof.
  intros Hz Hx. destruct (fadd_zero_r x z Hz) as [H | [_ H]]; [exact H |].
  rewrite H in Hx. discriminate.
Qed.

Lemma sample_lookup uniform : forall rs k i lo hi,
  rs !! i = Some (lo, hi) ->
  sample uniform k rs !! i = Some (uniform (k + i)%nat lo hi).
Proof.
  induction rs as [|r rs IH]; intros k i lo hi Hi; [discriminate |].
  destruct i as [|i]; simpl in *.
  - inversion Hi; subst. simpl. rewrite Nat.add_0_r. reflexivity.
  - rewrite (IH (S k) i lo hi Hi). f_equal. f_equal. lia.
Qed.

Lemma optimize_inv uniform f n w r w' :
  optimize uniform f n w = (Ok r, w') ->
  exists b, optimize_loop uniform f n initial_best w = (Ok b, w') /\ r = currentX b.
Proof.
  intros H. unfold optimize in H.
  apply bind_inv in H as [(b & w1 & Hloop & Hret) | (e & _ & He)]; [| discriminate].
  inversion Hret; subst. eauto.
Qed.

(** * Further properties *)

(** X1.  [generateRandomHypothesis] never raises.  It returns a new list
    object, allocated after all existing ones, with one coordinate per
    range: coordinate [i] is the value of the [i]-th draw of the call,
    made with the bounds of range [i].  It consumes one draw per range and
    changes nothing else: the instance, the existing lists and the record
    of objective calls are as before. *)
Theorem generateRandomHypothesis_draws uniform w :
  exists x,
    generateRandomHypothesis uniform w =
      (Ok (length (heap w)),
       mkWorld (self w) (heap w ++ [x])
         (rng w + length (ranges (self w))) (evals w)) /\
    length x = length (ranges (self w)) /\
    forall i lo hi,
      ranges (self w) !! i = Some (lo, hi) ->
      x !! i = Some (uniform (rng w + i)%nat lo hi).
Proof.
  exists (sample uniform (rng w) (ranges (self w))).
  split; [apply generateRandomHypothesis_ok |].
  split; [apply sample_length |].
  intros i lo hi Hi. apply sample_lookup, Hi.
Qed.

(** X2.  [selectLeftOrRight] raises [ZeroDivisionError] exactly when the
    two counters sum to zero, and [OverflowError] exactly when the sum is
    not zero and the quotient is too large for a float.  An exception is
    raised before any random number is drawn and leaves the world as it
    was; a selection changes nothing but the number of draws, which goes
    up by one. *)
Theorem selectLeftOrRight_errors uniform w :
  (fst (selectLeftOrRight uniform w) = Raise ZeroDivisionError <->
   leftPoints (self w) + rightPoints (self w) = 0) /\
  (fst (selectLeftOrRight uniform w) = Raise OverflowError <->
   leftPoints (self w) + rightPoints (self w) <> 0 /\
   Z.abs (leftPoints (self w) + rightPoints (self w)) * overflow_threshold
     <= Z.abs (leftPoints (self w))) /\
  (forall e, fst (selectLeftOrRight uniform w) = Raise e ->
     snd (selectLeftOrRight uniform w) = w) /\
  (forall h, fst (selectLeftOrRight uniform w) = Ok h ->
     snd (selectLeftOrRight uniform w) = set_rng (S (rng w)) w).
Proof.
  unfold selectLeftOrRight, bind, get_self, lift, r_uniform, ret, int_truediv.
  destruct (Z.eqb_spec (leftPoints (self w) + rightPoints (self w)) 0) as [Hz | Hz].
  { simpl. split; [| split; [| split]].
    - split; auto.
    - split; [discriminate | intros [H _]; contradiction].
    - reflexivity.
    - discriminate. }
  destruct (Z.leb_spec
              (Z.abs (leftPoints (self w) + rightPoints (self w)) * overflow_threshold)
              (Z.abs (leftPoints (self w)))) as [Ho | Ho].
  { simpl. split; [| split; [| split]].
    - split; [discriminate | intros H; contradiction].
    - split; auto.
    - reflexivity.
    - discriminate. }
  simpl.
  assert (Hok : forall h : hand,
             (Ok h = Raise ZeroDivisionError <->
              leftPoints (self w) + rightPoints (self w) = 0) /\
             (Ok h = Raise OverflowError <->
              leftPoints (self w) + rightPoints (self w) <> 0 /\
              Z.abs (leftPoints (self w) + rightPoints (self w)) * overflow_threshold
                <= Z.abs (leftPoints (self w)))).
  { intros h. split; (split; [discriminate |]).
    - intros H. contradiction.
    - intros [_ H]. lia. }
  destruct (py_lt _ _); simpl; (split; [apply Hok |]); (split; [apply Hok |]);
    (split; [discriminate | reflexivity]).
Qed.

(** X3.  [optimize] with no iteration returns [None] and changes nothing,
    whatever the counters are.  With counters that sum to zero and at
    least one iteration it raises [ZeroDivisionError] at the first
    selection: no random number is drawn, the objective is not called and
    the world is as before. *)
Theorem optimize_zero_sum uniform f w :
  optimize uniform f 0 w = (Ok None, w) /\
  (leftPoints (self w) + rightPoints (self w) = 0 ->
   forall n, optimize uniform f (S n) w = (Raise ZeroDivisionError, w)).
Proof.
  split; [reflexivity |].
  intros Hz n.
  assert (Hsel : selectLeftOrRight uniform w = (Raise ZeroDivisionError, w)).
  { unfold selectLeftOrRight. eapply bind_ok; [reflexivity |].
    apply bind_raise. unfold lift, int_truediv.
    apply Z.eqb_eq in Hz. rewrite Hz. reflexivity. }
  unfold optimize. apply bind_raise. simpl. apply bind_raise.
  unfold optimize_body. apply bind_raise. exact Hsel.
Qed.

Lemma optimize_zero_sum_witness :
  optimize (constant_uniform half) (const_objective zero) 3
    (fresh_world (mkTwoHanded [(zero, one)] 1 (-1)))
  = (Raise ZeroDivisionError, fresh_world (mkTwoHanded [(zero, one)] 1 (-1))).
Proof.
  apply (proj2 (optimize_zero_sum (constant_uniform half) (const_objective zero)
                  (fresh_world (mkTwoHanded [(zero, one)] 1 (-1))))).
  reflexivity.
Defined.

Lemma generateRandomHypothesis_draws_witness :
  exists x,
    fst (generateRandomHypothesis (constant_uniform half)
           (fresh_world (mkTwoHanded [(zero, one); (one, two)] 1 1))) = Ok 0%nat /\
    length x = 2%nat /\
    x !! 1%nat = Some (constant_uniform half 1 one two).
Proof.
  destruct (generateRandomHypothesis_draws (constant_uniform half)
              (fresh_world (mkTwoHanded [(zero, one); (one, two)] 1 1)))
    as (x & Hrun & Hlen & Hval).
  exists x. split; [rewrite Hrun; reflexivity |]. split; [exact Hlen |].
  exact (Hval 1%nat one two eq_refl).
Defined.

Lemma selectLeftOrRight_errors_witness :
  fst (selectLeftOrRight (constant_uniform half)
         (fresh_world (mkTwoHanded [(zero, one)] 0 0))) = Raise ZeroDivisionError /\
  snd (selectLeftOrRight (constant_uniform half)
         (fresh_world (mkTwoHanded [(zero, one)] 0 0)))
    = fresh_world (mkTwoHanded [(zero, one)] 0 0).
Proof.
  destruct (selectLeftOrRight_errors (constant_uniform half)
              (fresh_world (mkTwoHanded [(zero, one)] 0 0)))
    as (Hz & _ & Hraise & _).
  pose proof (proj2 Hz eq_refl) as H.
  split; [exact H | exact (Hraise _ H)].
Defined.

(** X4.  In a completed call of [optimize], every point handed to the
    objective has exactly one coordinate per range, the perturbed copies
    of the gradient step included, and so has the list that is returned. *)
Theorem optimize_dimension uniform f n w r w' :
  optimize uniform f n w = (Ok r, w') ->
  (exists new,
     evals w' = new ++ evals w /\
     Forall (fun y => length y = length (ranges (self w))) new) /\
  (forall q, r = Some q ->
     exists x, heap w' !! q = Some x /\ length x = length (ranges (self w))).
Proof.
  intros Hcall.
  destruct (optimize_inv _ _ _ _ _ _ Hcall) as (b & Hloop & ->).
  destruct (optimize_loop_facts uniform f n _ _ _ _ (initial_strong f w) Hloop)
    as (((Hv & _) & Hdim & _) & Hrg & _ & _ & _ & _ & new & He & Hall & _).
  split; [exists new; split; assumption |].
  intros q Hq. unfold best_valid in Hv. unfold best_dimension, hypothesis_of in Hdim.
  rewrite Hq in Hv, Hdim.
  destruct (lookup_lt_is_Some_2 _ _ Hv) as [x Hx].
  exists x. split; [exact Hx |].
  rewrite (Hdim x Hx). unfold dimension. rewrite Hrg. reflexivity.
Qed.

Lemma optimize_dimension_witness :
  exists q x,
    fst (optimize (constant_uniform quarter) (fold_right fadd zero) 3
           (fresh_world (mkTwoHanded [(zero, one); (one, two)] 1 1))) = Ok (Some q) /\
    heap (snd (optimize (constant_uniform quarter) (fold_right fadd zero) 3
                 (fresh_world (mkTwoHanded [(zero, one); (one, two)] 1 1)))) !! q
      = Some x /\
    length x = 2%nat.
Proof.
  destruct (optimize_dimension (constant_uniform quarter) (fold_right fadd zero) 3
              (fresh_world (mkTwoHanded [(zero, one); (one, two)] 1 1))
              _ _ (surjective_pairing _)) as (_ & Hret).
  destruct (Hret 0%nat) as (x & Hx & Hlen); [vm_compute; reflexivity |].
  exists 0%nat, x. split; [vm_compute; reflexivity |].
  split; [exact Hx | exact Hlen].
Defined.

(** X5.  After any number of completed iterations the best score is either
    still the initial [-inf], or it is the value of the objective at the
    best hypothesis, which then exists. *)
Theorem best_score_is_objective_at_best uniform f n w b w' :
  optimize_loop uniform f n initial_best w = (Ok b, w') ->
  currentY b = neg_inf \/
  exists q x,
    currentX b = Some q /\ heap w' !! q = Some x /\ f x = currentY b.
Proof.
  intros Hloop.
  destruct (optimize_loop_facts uniform f n _ _ _ _ (initial_strong f w) Hloop)
    as ((_ & _ & Hcons) & _).
  destruct Hcons as [Hneg | (x & Hx & Hfx)]; [left; exact Hneg | right].
  unfold hypothesis_of in Hx.
  destruct (currentX b) as [q|]; [| discriminate].
  exists q, x. auto.
Qed.

Lemma best_score_is_objective_at_best_witness :
  exists b w' q x,
    optimize_loop (constant_uniform quarter) (fold_right fadd zero) 3 initial_best
      (fresh_world unit_interval) = (Ok b, w') /\
    currentX b = Some q /\ heap w' !! q = Some x /\
    fold_right fadd zero x = currentY b.
Proof.
  destruct (optimize_loop (constant_uniform quarter) (fold_right fadd zero) 3
              initial_best (fresh_world unit_interval)) as [[b|e] w'] eqn:Hrun;
    [| vm_compute in Hrun; discriminate Hrun].
  destruct (best_score_is_objective_at_best (constant_uniform quarter)
              (fold_right fadd zero) 3 (fresh_world unit_interval) b w' Hrun)
    as [Hneg | (q & x & Hq & Hx & Hfx)].
  - exfalso. vm_compute in Hrun.
    apply (f_equal (fun p => match fst p with Ok b0 => currentY b0 | Raise _ => nan end))
      in Hrun.
    simpl in Hrun. rewrite Hneg in Hrun. discriminate Hrun.
  - exists b, w', q, x. auto.
Defined.

(** X6.  The best score of a completed run is not beaten by any candidate
    of the run: for the candidate [c] of each iteration, [f c > bestScore]
    is false at the end. *)
Theorem best_score_bounds_candidates uniform f n w bn wn :
  optimize_loop uniform f n initial_best w = (Ok bn, wn) ->
  forall j, (j < n)%nat ->
    exists bj wj h w1,
      optimize_loop uniform f j initial_best w = (Ok bj, wj) /\
      selectLeftOrRight uniform wj = (Ok h, w1) /\
      py_gt (f (candidate uniform f h bj wj)) (currentY bn) = false.
Proof.
  intros Hrun j Hj.
  replace n with (j + S (n - S j))%nat in Hrun by lia.
  rewrite optimize_loop_app in Hrun.
  apply bind_inv in Hrun as [(bj & wj & Hpre & Hrest) | (e & _ & He)];
    [| discriminate].
  simpl in Hrest.
  apply bind_inv in Hrest as [(b1 & w1 & Hbody & Hpost) | (e & _ & He)];
    [| discriminate].
  destruct (optimize_loop_facts uniform f j _ _ _ _ (initial_strong f w) Hpre)
    as (Hinvj & _).
  destruct (optimize_body_facts uniform f _ _ _ _ Hinvj Hbody)
    as (h & w0 & Hsel & Hinv1 & _ & _ & Hnot & _).
  destruct (optimize_loop_facts uniform f _ _ _ _ _ Hinv1 Hpost)
    as (_ & _ & Hle & _).
  exists bj, wj, h, w0. split; [exact Hpre |]. split; [exact Hsel |].
  eapply py_gt_false_le; eassumption.
Qed.

Lemma best_score_bounds_candidates_witness :
  exists bj wj h w1,
    optimize_loop (constant_uniform quarter) (fold_right fadd zero) 1 initial_best
      (fresh_world unit_interval) = (Ok bj, wj) /\
    selectLeftOrRight (constant_uniform quarter) wj = (Ok h, w1) /\
    py_gt (fold_right fadd zero
             (candidate (constant_uniform quarter) (fold_right fadd zero) h bj wj))
          (currentY (match fst (optimize_loop (constant_uniform quarter)
                                  (fold_right fadd zero) 3 initial_best
                                  (fresh_world unit_interval)) with
                     | Ok b => b
                     | Raise _ => initial_best
                     end)) = false.
Proof.
  destruct (optimize_loop (constant_uniform quarter) (fold_right fadd zero) 3
              initial_best (fresh_world unit_interval)) as [[bn|e] wn] eqn:Hrun;
    [| vm_compute in Hrun; discriminate Hrun].
  exact (best_score_bounds_candidates (constant_uniform quarter)
           (fold_right fadd zero) 3 (fresh_world unit_interval) bn wn Hrun
           1%nat ltac:(lia)).
Defined.

(** X7.  Along a completed run the best score only goes up and lists are
    never modified once produced: for every [j <= n], the best score after
    [j] iterations is less than or equal to the best score after [n], and
    every list object that exists after [j] iterations has the same content
    after [n]. *)
Theorem run_prefix_monotone uniform f n w bn wn :
  optimize_loop uniform f n initial_best w = (Ok bn, wn) ->
  forall j, (j <= n)%nat ->
    exists bj wj,
      optimize_loop uniform f j initial_best w = (Ok bj, wj) /\
      py_le (currentY bj) (currentY bn) = true /\
      forall l y, heap wj !! l = Some y -> heap wn !! l = Some y.
Proof.
  intros Hrun j Hj.
  replace n with (j + (n - j))%nat in Hrun by lia.
  rewrite optimize_loop_app in Hrun.
  apply bind_inv in Hrun as [(bj & wj & Hpre & Hrest) | (e & _ & He)];
    [| discriminate].
  destruct (optimize_loop_facts uniform f j _ _ _ _ (initial_strong f w) Hpre)
    as (Hinvj & _).
  destruct (optimize_loop_facts uniform f _ _ _ _ _ Hinvj Hrest)
    as (_ & _ & Hle & Hfr & _).
  exists bj, wj. auto.
Qed.

Lemma run_prefix_monotone_witness :
  exists bj wj bn wn,
    optimize_loop (constant_uniform quarter) (fold_right fadd zero) 1 initial_best
      (fresh_world unit_interval) = (Ok bj, wj) /\
    optimize_loop (constant_uniform quarter) (fold_right fadd zero) 4 initial_best
      (fresh_world unit_interval) = (Ok bn, wn) /\
    py_le (currentY bj) (currentY bn) = true.
Proof.
  destruct (optimize_loop (constant_uniform quarter) (fold_right fadd zero) 4
              initial_best (fresh_world unit_interval)) as [[bn|e] wn] eqn:Hrun;
    [| vm_compute in Hrun; discriminate Hrun].
  destruct (run_prefix_monotone (constant_uniform quarter) (fold_right fadd zero) 4
              (fresh_world unit_interval) bn wn Hrun 1%nat ltac:(lia))
    as (bj & wj & Hj & Hle & _).
  exists bj, wj, bn, wn. auto.
Defined.

(** X8.  A completed call of [optimize] leaves every list object that
    existed before the call as it was, and the bounds of the instance too;
    the list it returns, if any, is an object created during the call. *)
Theorem optimize_frame uniform f n w r w' :
  optimize uniform f n w = (Ok r, w') ->
  (forall l y, heap w !! l = Some y -> heap w' !! l = Some y) /\
  ranges (self w') = ranges (self w) /\
  (forall q, r = Some q -> heap w !! q = None /\ is_Some (heap w' !! q)).
Proof.
  intros Hcall.
  destruct (optimize_inv _ _ _ _ _ _ Hcall) as (b & Hloop & ->).
  destruct (optimize_loop_facts uniform f n _ _ _ _ (initial_strong f w) Hloop)
    as (((Hv & _) & _) & Hrg & _ & Hfr & Hloc & _).
  split; [exact Hfr |]. split; [exact Hrg |].
  intros q Hq. unfold best_valid in Hv. rewrite Hq in Hv, Hloc. split.
  - destruct Hloc as [Hnone | (q' & Hq' & Hge)]; [discriminate |].
    inversion Hq'; subst. apply lookup_ge_None. exact Hge.
  - apply lookup_lt_is_Some_2. exact Hv.
Qed.

Lemma optimize_frame_witness :
  exists r w',
    optimize (constant_uniform three_quarters) (fold_right fadd zero) 3
      (world_with [one; two]) = (Ok r, w') /\
    heap w' !! 0%nat = Some [one; two].
Proof.
  destruct (optimize (constant_uniform three_quarters) (fold_right fadd zero) 3
              (world_with [one; two])) as [[r|e] w'] eqn:Hrun;
    [| vm_compute in Hrun; discriminate Hrun].
  destruct (optimize_frame (constant_uniform three_quarters) (fold_right fadd zero) 3
              (world_with [one; two]) r w' Hrun) as (Hfr & _).
  exists r, w'. split; [reflexivity |].
  exact (Hfr 0%nat [one; two] eq_refl).
Defined.

(** X9.  The cost of one completed iteration, with [d] the number of
    ranges: random search consumes [d + 1] draws and calls the objective
    once; the gradient step consumes one draw and calls the objective
    [2 * d + 1] times. *)
Theorem iteration_cost uniform f k w b w1 b' w' :
  optimize_loop uniform f k initial_best w = (Ok b, w1) ->
  optimize_body uniform f b w1 = (Ok b', w') ->
  exists h w2,
    selectLeftOrRight uniform w1 = (Ok h, w2) /\
    rng w' = (rng w1 + match h with
                       | L => S (length (ranges (self w)))
                       | R => 1
                       end)%nat /\
    length (evals w') = (length (evals w1) + match h with
                                             | L => 1
                                             | R => S (2 * length (ranges (self w)))
                                             end)%nat.
Proof.
  intros Hreach Hbody.
  destruct (optimize_loop_facts uniform f k _ _ _ _ (initial_strong f w) Hreach)
    as (Hinv & Hrg & _).
  destruct (optimize_body_facts uniform f _ _ _ _ Hinv Hbody)
    as (h & w2 & Hsel & _ & _ & _ & _ & He & _ & Hr & _).
  exists h, w2. split; [exact Hsel |].
  pose proof (candidate_evaluations_length h b w1 (proj1 (proj2 Hinv))) as Hcalls.
  unfold dimension in *. rewrite Hrg in *. split.
  - rewrite Hr. destruct h; reflexivity.
  - rewrite He. simpl. rewrite length_app, length_rev.
    destruct h; simpl in *; lia.
Qed.

Lemma iteration_cost_witness :
  exists b' w',
    optimize_body (constant_uniform three_quarters) (fold_right fadd zero)
      initial_best (fresh_world (mkTwoHanded [(zero, one); (one, two)] 1 1))
      = (Ok b', w') /\
    rng w' = 1%nat /\ length (evals w') = 5%nat.
Proof.
  destruct (optimize_body (constant_uniform three_quarters) (fold_right fadd zero)
              initial_best (fresh_world (mkTwoHanded [(zero, one); (one, two)] 1 1)))
    as [[b'|e] w'] eqn:Hbody; [| vm_compute in Hbody; discriminate Hbody].
  destruct (iteration_cost (constant_uniform three_quarters) (fold_right fadd zero) 0
              (fresh_world (mkTwoHanded [(zero, one); (one, two)] 1 1))
              initial_best _ b' w' eq_refl Hbody) as (h & w2 & Hsel & Hr & He).
  vm_compute in Hsel. inversion Hsel; subst h.
  exists b', w'. auto.
Defined.

(** X10.  The cost of a completed call of [optimize] of [n] iterations,
    with [d] the number of ranges: between [n] and [n * (2 * d + 1)]
    objective calls, between [n] and [n * (d + 1)] draws, and twice the
    draws plus the calls is exactly [n * (2 * d + 3)]. *)
Theorem optimize_cost uniform f n w r w' :
  optimize uniform f n w = (Ok r, w') ->
  let d := length (ranges (self w)) in
  let calls := (length (evals w') - length (evals w))%nat in
  let draws := (rng w' - rng w)%nat in
  (length (evals w) <= length (evals w'))%nat /\
  (rng w <= rng w')%nat /\
  (n <= calls <= n * (2 * d + 1))%nat /\
  (n <= draws <= n * (d + 1))%nat /\
  (2 * draws + calls = n * (2 * d + 3))%nat.
Proof.
  intros Hcall d calls draws.
  destruct (optimize_inv _ _ _ _ _ _ Hcall) as (b & Hloop & _).
  destruct (optimize_loop_facts uniform f n _ _ _ _ (initial_strong f w) Hloop)
    as (_ & _ & _ & _ & _ & _ & new & He & _ & Hcnt & Hrng & Hsum).
  unfold calls, draws, d, dimension in *. rewrite He, length_app.
  replace (length new + length (evals w) - length (evals w))%nat
    with (length new) by lia.
  repeat apply conj; lia.
Qed.

Lemma optimize_cost_witness :
  exists r w',
    optimize (constant_uniform quarter) (fold_right fadd zero) 4
      (fresh_world unit_interval) = (Ok r, w') /\
    (4 <= length (evals w') <= 4 * 3)%nat.
Proof.
  destruct (optimize (constant_uniform quarter) (fold_right fadd zero) 4
              (fresh_world unit_interval)) as [[r|e] w'] eqn:Hrun;
    [| vm_compute in Hrun; discriminate Hrun].
  destruct (optimize_cost (constant_uniform quarter) (fold_right fadd zero) 4
              (fresh_world unit_interval) r w' Hrun) as (Hle & _ & Hcalls & _).
  exists r, w'. split; [reflexivity |].
  simpl in Hle, Hcalls. lia.
Defined.

(** X11.  On a plateau the gradient step does not move: when the step
    size is neither zero nor a NaN, the learning rate is finite, the
    objective is finite at [x] and takes the same value at every perturbed
    copy of [x], the returned list has the coordinates of [x], up to the
    sign of a zero; it is [x] itself when no coordinate is a zero. *)
Theorem gradientStep_plateau f p dx learnRate x w :
  heap w !! p = Some x ->
  is_zero dx = false -> is_nan dx = false ->
  is_finite learnRate = true ->
  is_finite (f x) = true ->
  (forall i, (i < length x)%nat -> f (perturb x i dx) = f x) ->
  exists q x' w',
    gradientStep f p dx learnRate w = (Ok q, w') /\
    heap w' !! q = Some x' /\
    Forall2 same_value x' x /\
    (Forall (fun c => is_zero c = false) x -> x' = x).
Proof.
  intros Hp Hdx Hnan Hlr Hfin Hflat.
  destruct (gradientStep_ok f p dx learnRate x w Hp (or_introl Hdx))
    as (q & w' & Hrun & _ & Hq & _).
  exists q, (ascended f x dx learnRate), w'.
  split; [exact Hrun |]. split; [exact Hq |].
  assert (Hz : forall i, (i < length x)%nat ->
             is_zero (fmul learnRate (forward_difference f x dx i)) = true).
  { intros i Hi. apply fmul_zero_r; [exact Hlr |].
    unfold forward_difference. rewrite (Hflat i Hi), (fsub_diag _ Hfin).
    apply fdiv_zero_l; [reflexivity | exact Hnan | exact Hdx]. }
  split.
  - apply Forall2_same_length_lookup. split; [apply ascended_length |].
    intros i a c Ha Hc. unfold ascended in Ha.
    rewrite list_lookup_imap, Hc in Ha. simpl in Ha. inversion Ha; subst a.
    apply fadd_zero_r, Hz. eapply lookup_lt_Some, Hc.
  - intros Hnz. apply list_eq. intros i. unfold ascended.
    rewrite list_lookup_imap.
    destruct (x !! i) as [c|] eqn:Hc; [| reflexivity]. simpl. f_equal.
    apply fadd_zero_r_eq; [apply Hz; eapply lookup_lt_Some, Hc |].
    rewrite Forall_forall in Hnz. apply Hnz. eapply list_elem_of_lookup_2, Hc.
Qed.

Lemma gradientStep_plateau_witness :
  exists q w',
    gradientStep (const_objective one) 0 default_dx default_learnRate
      (world_with [one; two]) = (Ok q, w') /\
    heap w' !! q = Some [one; two].
Proof.
  destruct (gradientStep_plateau (const_objective one) 0 default_dx default_learnRate
              [one; two] (world_with [one; two]) eq_refl eq_refl eq_refl eq_refl
              eq_refl (fun _ _ => eq_refl))
    as (q & x' & w' & Hrun & Hq & _ & Heq).
  exists q, w'. split; [exact Hrun |].
  rewrite Hq. f_equal. apply Heq.
  repeat constructor.
Defined.

(** X12.  [gradientStep] on the empty list: it returns a new empty list
    without calling the objective and without dividing, so that it does
    not raise whatever the step size is, zero included. *)
Theorem gradientStep_empty f p dx learnRate w :
  heap w !! p = Some [] ->
  exists q w',
    gradientStep f p dx learnRate w = (Ok q, w') /\
    heap w' !! q = Some [] /\
    heap w !! q = None /\
    evals w' = evals w /\
    forall l y, heap w !! l = Some y -> heap w' !! l = Some y.
Proof.
  intros Hp.
  destruct (gradientStep_ok f p dx learnRate [] w Hp (or_intror eq_refl))
    as (q & w' & Hrun & Hge & Hq & Hfr & _ & _ & He).
  exists q, w'. split; [exact Hrun |]. split; [exact Hq |].
  split; [apply lookup_ge_None; exact Hge |]. split; [exact He |].
  intros l y Hl. rewrite Hfr; [exact Hl | eapply lookup_live, Hl].
Qed.

Lemma gradientStep_empty_witness :
  exists q w',
    gradientStep (fold_right fadd zero) 0 zero one (world_with []) = (Ok q, w') /\
    heap w' !! q = Some [] /\ evals w' = [].
Proof.
  destruct (gradientStep_empty (fold_right fadd zero) 0 zero one
              (world_with []) eq_refl) as (q & w' & Hrun & Hq & _ & He & _).
  exists q, w'. auto.
Defined.

(** X14.  A zero [leftPoints] starves random search: with [leftPoints = 0]
    and a positive [rightPoints] the quotient is [0.0], so that a draw that
    is not negative always selects the gradient step. *)
Theorem selectLeftOrRight_zero_left uniform w :
  leftPoints (self w) = 0 -> 0 < rightPoints (self w) ->
  py_lt (uniform (rng w) zero one) zero = false ->
  selectLeftOrRight uniform w = (Ok R, set_rng (S (rng w)) w).
Proof.
  intros Hl Hr Hu.
  assert (Hdiv : int_truediv (leftPoints (self w))
                   (leftPoints (self w) + rightPoints (self w)) = Ok zero).
  { rewrite Hl. unfold int_truediv. rewrite !Z.add_0_l.
    destruct (rightPoints (self w)) as [|r|r]; try lia.
    pose proof overflow_threshold_pos as HT.
    assert (Ho : (Z.abs (Z.pos r) * overflow_threshold <=? Z.abs 0) = false).
    { apply Z.leb_gt. simpl Z.abs.
      generalize dependent overflow_threshold. intros T HT. nia. }
    change (Z.pos r =? 0) with false. cbv iota. rewrite Ho. reflexivity. }
  unfold selectLeftOrRight.
  eapply bind_ok; [reflexivity |].
  eapply bind_ok; [unfold lift; rewrite Hdiv; reflexivity |].
  eapply bind_ok; [reflexivity |].
  rewrite Hu. reflexivity.
Qed.

Lemma selectLeftOrRight_zero_left_witness :
  selectLeftOrRight (constant_uniform quarter)
    (fresh_world (mkTwoHanded [(zero, one)] 0 1))
  = (Ok R, set_rng 1 (fresh_world (mkTwoHanded [(zero, one)] 0 1))).
Proof.
  apply (selectLeftOrRight_zero_left (constant_uniform quarter)
           (fresh_world (mkTwoHanded [(zero, one)] 0 1)));
    [reflexivity | reflexivity | vm_compute; reflexivity].
Defined.
